(** * PriorBaseDQN: the learning loop and action selector of SnakeRL

    A shallow embedding of [src/policies/policy_PriorityBaseDQN.py].

    Modelling choices.
    - Python floats are exact rationals ([Q]); Python ints are [Z].
    - The Keras model, the state encoder, the replay buffer and the action
      set of the base policy live outside the file: they are the fields of
      the class [World].
    - Every method of the policy mutates [self] and may raise: methods are
      computations of the monad [M], a state monad over [self] with
      exceptions; [try_except] is Python's [try ... except Exception].
    - Calls whose arguments the properties talk about (log, print, fit,
      the temperature division) are recorded, in order, in the field [out]. *)

From Stdlib Require Import ZArith QArith Qminmax Qabs Lia Lqa.
From stdpp Require Import base option list.

Local Open Scope Z_scope.

(** ** Numbers *)

(** Python's [a < b] on numbers. *)
Definition Qlt_bool (x y : Q) : bool := negb (Qle_bool y x).

(** [np.amax] of one row: the first argument is the running maximum. *)
Fixpoint amax_from (m : Q) (row : list Q) : Q :=
  match row with
  | [] => m
  | x :: row' => amax_from (if Qlt_bool m x then x else m) row'
  end.

(** [np.amax(row)]; numpy refuses a row of size zero. *)
Definition amax (row : list Q) : option Q :=
  match row with
  | [] => None
  | x :: row' => Some (amax_from x row')
  end.

(** [np.argmax] of one row: the index of the first maximal entry.
    [i] is the index of the running maximum [m], [k] the index of the head
    of the rest. *)
Fixpoint argmax_from (i : nat) (m : Q) (k : nat) (row : list Q) : nat :=
  match row with
  | [] => i
  | x :: row' =>
      if Qlt_bool m x then argmax_from k x (S k) row'
      else argmax_from i m (S k) row'
  end.

Definition argmax (row : list Q) : option nat :=
  match row with
  | [] => None
  | x :: row' => Some (argmax_from 0 x 1 row')
  end.

(** [np.sum(np.abs(a - b), axis=-1)] of one row. *)
Fixpoint abs_diff_sum (a b : list Q) : Q :=
  match a, b with
  | x :: a', y :: b' => (Qabs (x - y) + abs_diff_sum a' b')%Q
  | _, _ => 0%Q
  end.

(** [np.random.rand()]: a double in the half-open interval from 0 to 1,
    that is [k / 2^53] for 53 random bits [k]. *)
Definition np_random_rand (bits : N) : Q :=
  Qmake (Z.of_N (bits mod 2 ^ 53)) (2 ^ 53).

(** ** Exceptions and output *)

Inductive exn : Set :=
  | ZeroDivisionError
  | IndexError
  | ValueError
  | SampleError          (* raised by the replay buffer *)
  | FitError.            (* raised by Keras while fitting *)

Inductive log_type : Set := VALUE | EXCEPTION.

(** The messages of [self.log]; the formatted numbers are kept as values. *)
Inductive message : Set :=
  | StartingInit
  | InitFinished
  | RewardsScore (r_sum eps : Q) (db_size : nat)
  | RewardsLoss (r_sum eps : Q) (db_size : nat) (total_loss : Q)
  | SomethingWentWrong
  | ExceptionText (e : exn).

(** ** Methods as computations

    A method body runs on the object [S], leaves it changed, and either
    returns a value or raises. What was assigned before a raise stays
    assigned. *)

Definition M (S A : Type) : Type := S -> S * (exn + A).

Definition ret {S A} (x : A) : M S A := fun s => (s, inr x).

Definition raise {S A} (e : exn) : M S A := fun s => (s, inl e).

Definition bind {S A B} (m : M S A) (k : A -> M S B) : M S B :=
  fun s =>
    match m s with
    | (s', inr x) => k x s'
    | (s', inl e) => (s', inl e)
    end.

Definition get {S} : M S S := fun s => (s, inr s).

Definition modify {S} (f : S -> S) : M S unit := fun s => (f s, inr tt).

(** [try: body except Exception as e: handler e]. *)
Definition try_except {S A} (body : M S A) (handler : exn -> M S A) : M S A :=
  fun s =>
    match body s with
    | (s', inr x) => (s', inr x)
    | (s', inl e) => handler e s'
    end.

(** [if c: body]. *)
Definition when {S} (c : bool) (body : M S unit) : M S unit :=
  if c then body else ret tt.

(** The result of a call into the world. *)
Definition lift {S A} (r : exn + A) : M S A := fun s => (s, r).

(** A value that must be there, or else [e] is raised. *)
Definition orelse {S A} (o : option A) (e : exn) : M S A :=
  match o with
  | Some x => ret x
  | None => raise e
  end.

Declare Scope method_scope.
Delimit Scope method_scope with method.
Bind Scope method_scope with M.
Notation "x <- m ;; k" := (bind m (fun x => k))
  (at level 100, m at next level, k at level 200, right associativity)
  : method_scope.
Notation "m ;; k" := (bind m (fun _ => k))
  (at level 100, k at level 200, right associativity) : method_scope.
Local Open Scope method_scope.

(** The object a method leaves behind, and what the caller gets. *)
Definition exec {S A} (m : M S A) (s : S) : S := fst (m s).
Definition result {S A} (m : M S A) (s : S) : exn + A := snd (m s).

(** [a % b] and [a / b] of Python. For [b > 0], [a % b] lies between 0 and
    [b - 1] whatever the sign of [a], as [Z.modulo] does. *)
Definition py_mod {S} (a b : Z) : M S Z :=
  if b =? 0 then raise ZeroDivisionError else ret (a mod b).

Definition py_truediv {S} (a : Q) (b : Z) : M S Q :=
  if b =? 0 then raise ZeroDivisionError else ret (a / inject_Z b)%Q.

(** ** The world outside the policy *)

Class World := {
  (* the game *)
  game_state : Type;
  action : Type;
  action_eq_dec :: EqDecision action;
  ACTIONS : list action;                       (* bp.Policy.ACTIONS *)
  (* state_utils.State *)
  state_repr : Type;
  get_state_repr : game_state -> state_repr;
  (* keras *)
  weights : Type;
  _build_model : weights;
  predict : weights -> state_repr -> list Q;   (* one row of model.predict *)
  fit : weights -> list state_repr -> list (list Q) -> list Q ->
        weights * (exn + Q);                   (* new weights; loss *)
  (* utils.replay_buffer.PrioritizedReplayBuffer *)
  buffer : Type;
  rng : Type;
  new_buffer : Z -> Q -> buffer;
  buffer_len : buffer -> nat;
  buffer_add : buffer -> state_repr -> nat -> Q -> state_repr -> Z -> buffer;
  buffer_sample : buffer -> Z -> Q -> rng ->
        exn + list (state_repr * nat * Q * state_repr * Z * Q * nat);
  update_priorities : buffer -> list nat -> list Q -> exn + buffer
}.

Section Policy.
Context {W : World}.

(** One row of the seven parallel arrays that [memory.sample] returns:
    prev, action, reward, new, terminal flag, sample weight, index. *)
Definition sample : Type := (state_repr * nat * Q * state_repr * Z * Q * nat)%type.

Definition s_prev (x : sample) : state_repr := x.1.1.1.1.1.1.
Definition s_action (x : sample) : nat := x.1.1.1.1.1.2.
Definition s_reward (x : sample) : Q := x.1.1.1.1.2.
Definition s_new (x : sample) : state_repr := x.1.1.1.2.
Definition s_weight (x : sample) : Q := x.1.2.
Definition s_idx (x : sample) : nat := x.2.

Inductive event : Type :=
  | Log (m : message) (t : option log_type)
  | Print (e : exn)
  | Fit (prev : list state_repr) (target_f : list (list Q)) (sample_weight : list Q)
  | Temperature (q : list Q) (eps : Q).      (* the division q / eps of act *)

(** ** The policy object *)

Record self : Type := mkSelf {
  (* set by the base policy *)
  game_duration : Z;
  score_scope : Z;
  (* set by cast_string_args *)
  epsilon : Q;
  gamma : Q;
  huber_loss : bool;
  use_softmax_sampling : bool;
  epsilon_decay : Q;
  min_epsilon : Q;
  learning_rate : Q;
  batch_size : Z;
  doubleDQN : bool;
  save_model_round : Z;
  (* set by init_run *)
  r_sum : Q;
  model : weights;
  old_model : weights;
  memory : buffer;
  num_of_samples : Z;
  sum_of_loss : Q;
  (* what the policy has logged, printed and asked of Keras so far *)
  out : list event
}.

(** Attribute assignment, [self.f = v], one function per attribute. *)

Definition set_game_duration (v : Z) (s : self) : self :=
  mkSelf v (score_scope s) (epsilon s) (gamma s) (huber_loss s)
    (use_softmax_sampling s) (epsilon_decay s) (min_epsilon s)
    (learning_rate s) (batch_size s) (doubleDQN s) (save_model_round s)
    (r_sum s) (model s) (old_model s) (memory s) (num_of_samples s)
    (sum_of_loss s) (out s).

Definition set_score_scope (v : Z) (s : self) : self :=
  mkSelf (game_duration s) v (epsilon s) (gamma s) (huber_loss s)
    (use_softmax_sampling s) (epsilon_decay s) (min_epsilon s)
    (learning_rate s) (batch_size s) (doubleDQN s) (save_model_round s)
    (r_sum s) (model s) (old_model s) (memory s) (num_of_samples s)
    (sum_of_loss s) (out s).

Definition set_epsilon (v : Q) (s : self) : self :=
  mkSelf (game_duration s) (score_scope s) v (gamma s) (huber_loss s)
    (use_softmax_sampling s) (epsilon_decay s) (min_epsilon s)
    (learning_rate s) (batch_size s) (doubleDQN s) (save_model_round s)
    (r_sum s) (model s) (old_model s) (memory s) (num_of_samples s)
    (sum_of_loss s) (out s).

Definition set_gamma (v : Q) (s : self) : self :=
  mkSelf (game_duration s) (score_scope s) (epsilon s) v (huber_loss s)
    (use_softmax_sampling s) (epsilon_decay s) (min_epsilon s)
    (learning_rate s) (batch_size s) (doubleDQN s) (save_model_round s)
    (r_sum s) (model s) (old_model s) (memory s) (num_of_samples s)
    (sum_of_loss s) (out s).

Definition set_huber_loss (v : bool) (s : self) : self :=
  mkSelf (game_duration s) (score_scope s) (epsilon s) (gamma s) v
    (use_softmax_sampling s) (epsilon_decay s) (min_epsilon s)
    (learning_rate s) (batch_size s) (doubleDQN s) (save_model_round s)
    (r_sum s) (model s) (old_model s) (memory s) (num_of_samples s)
    (sum_of_loss s) (out s).

Definition set_use_softmax_sampling (v : bool) (s : self) : self :=
  mkSelf (game_duration s) (score_scope s) (epsilon s) (gamma s)
    (huber_loss s) v (epsilon_decay s) (min_epsilon s) (learning_rate s)
    (batch_size s) (doubleDQN s) (save_model_round s) (r_sum s) (model s)
    (old_model s) (memory s) (num_of_samples s) (sum_of_loss s) (out s).

Definition set_epsilon_decay (v : Q) (s : self) : self :=
  mkSelf (game_duration s) (score_scope s) (epsilon s) (gamma s)
    (huber_loss s) (use_softmax_sampling s) v (min_epsilon s)
    (learning_rate s) (batch_size s) (doubleDQN s) (save_model_round s)
    (r_sum s) (model s) (old_model s) (memory s) (num_of_samples s)
    (sum_of_loss s) (out s).

Definition set_min_epsilon (v : Q) (s : self) : self :=
  mkSelf (game_duration s) (score_scope s) (epsilon s) (gamma s)
    (huber_loss s) (use_softmax_sampling s) (epsilon_decay s) v
    (learning_rate s) (batch_size s) (doubleDQN s) (save_model_round s)
    (r_sum s) (model s) (old_model s) (memory s) (num_of_samples s)
    (sum_of_loss s) (out s).

Definition set_learning_rate (v : Q) (s : self) : self :=
  mkSelf (game_duration s) (score_scope s) (epsilon s) (gamma s)
    (huber_loss s) (use_softmax_sampling s) (epsilon_decay s) (min_epsilon s)
    v (batch_size s) (doubleDQN s) (save_model_round s) (r_sum s) (model s)
    (old_model s) (memory s) (num_of_samples s) (sum_of_loss s) (out s).

Definition set_batch_size (v : Z) (s : self) : self :=
  mkSelf (game_duration s) (score_scope s) (epsilon s) (gamma s)
    (huber_loss s) (use_softmax_sampling s) (epsilon_decay s) (min_epsilon s)
    (learning_rate s) v (doubleDQN s) (save_model_round s) (r_sum s) (model s)
    (old_model s) (memory s) (num_of_samples s) (sum_of_loss s) (out s).

Definition set_doubleDQN (v : bool) (s : self) : self :=
  mkSelf (game_duration s) (score_scope s) (epsilon s) (gamma s)
    (huber_loss s) (use_softmax_sampling s) (epsilon_decay s) (min_epsilon s)
    (learning_rate s) (batch_size s) v (save_model_round s) (r_sum s)
    (model s) (old_model s) (memory s) (num_of_samples s) (sum_of_loss s)
    (out s).

Definition set_save_model_round (v : Z) (s : self) : self :=
  mkSelf (game_duration s) (score_scope s) (epsilon s) (gamma s)
    (huber_loss s) (use_softmax_sampling s) (epsilon_decay s) (min_epsilon s)
    (learning_rate s) (batch_size s) (doubleDQN s) v (r_sum s) (model s)
    (old_model s) (memory s) (num_of_samples s) (sum_of_loss s) (out s).

Definition set_r_sum (v : Q) (s : self) : self :=
  mkSelf (game_duration s) (score_scope s) (epsilon s) (gamma s)
    (huber_loss s) (use_softmax_sampling s) (epsilon_decay s) (min_epsilon s)
    (learning_rate s) (batch_size s) (doubleDQN s) (save_model_round s) v
    (model s) (old_model s) (memory s) (num_of_samples s) (sum_of_loss s)
    (out s).

Definition set_model (v : weights) (s : self) : self :=
  mkSelf (game_duration s) (score_scope s) (epsilon s) (gamma s)
    (huber_loss s) (use_softmax_sampling s) (epsilon_decay s) (min_epsilon s)
    (learning_rate s) (batch_size s) (doubleDQN s) (save_model_round s)
    (r_sum s) v (old_model s) (memory s) (num_of_samples s) (sum_of_loss s)
    (out s).

Definition set_old_model (v : weights) (s : self) : self :=
  mkSelf (game_duration s) (score_scope s) (epsilon s) (gamma s)
    (huber_loss s) (use_softmax_sampling s) (epsilon_decay s) (min_epsilon s)
    (learning_rate s) (batch_size s) (doubleDQN s) (save_model_round s)
    (r_sum s) (model s) v (memory s) (num_of_samples s) (sum_of_loss s)
    (out s).

Definition set_memory (v : buffer) (s : self) : self :=
  mkSelf (game_duration s) (score_scope s) (epsilon s) (gamma s)
    (huber_loss s) (use_softmax_sampling s) (epsilon_decay s) (min_epsilon s)
    (learning_rate s) (batch_size s) (doubleDQN s) (save_model_round s)
    (r_sum s) (model s) (old_model s) v (num_of_samples s) (sum_of_loss s)
    (out s).

Definition set_num_of_samples (v : Z) (s : self) : self :=
  mkSelf (game_duration s) (score_scope s) (epsilon s) (gamma s)
    (huber_loss s) (use_softmax_sampling s) (epsilon_decay s) (min_epsilon s)
    (learning_rate s) (batch_size s) (doubleDQN s) (save_model_round s)
    (r_sum s) (model s) (old_model s) (memory s) v (sum_of_loss s) (out s).

Definition set_sum_of_loss (v : Q) (s : self) : self :=
  mkSelf (game_duration s) (score_scope s) (epsilon s) (gamma s)
    (huber_loss s) (use_softmax_sampling s) (epsilon_decay s) (min_epsilon s)
    (learning_rate s) (batch_size s) (doubleDQN s) (save_model_round s)
    (r_sum s) (model s) (old_model s) (memory s) (num_of_samples s) v (out s).

(** One more entry of [out]. *)
Definition emit (e : event) (s : self) : self :=
  mkSelf (game_duration s) (score_scope s) (epsilon s) (gamma s)
    (huber_loss s) (use_softmax_sampling s) (epsilon_decay s) (min_epsilon s)
    (learning_rate s) (batch_size s) (doubleDQN s) (save_model_round s)
    (r_sum s) (model s) (old_model s) (memory s) (num_of_samples s)
    (sum_of_loss s) (out s ++ [e]).

(** ** Module constants *)

Definition EPSILON : Q := 2.
Definition MIN_EPSILON : Q := 33 # 100.
Definition GAMMA : Q := 3 # 4.
Definition BUFFER_SIZE : Z := 6000.

(** ** The methods of PriorBaseDQN *)

Definition method (A : Type) : Type := M self A.

(** [self.log(msg, type)]. *)
Definition log (m : message) (t : option log_type) : method unit :=
  modify (emit (Log m t)).

(** The entries of [policy_args] that [cast_string_args] reads. [None] is
    an absent key; a present key holds what [float] makes of its string:
    the number, or the ValueError that [float] raises on a string that is
    no number. *)
Record policy_args : Set := mkArgs {
  arg_epsilon : option (exn + Q);
  arg_gamma : option (exn + Q)
}.

(** [float(policy_args[key]) if key in policy_args else d]. *)
Definition float_or (d : Q) (v : option (exn + Q)) : method Q :=
  match v with
  | Some r => lift r
  | None => ret d
  end.

(** [cast_string_args]. The settings of the state encoder (state_radius,
    state_rep, step_forward, flatten, augment_after_normaliztion) are read
    by [init_run] only, to build the encoder that [World] provides.
    [_additional_args] is the subclass's hook. *)
Definition cast_string_args
    (_additional_args : policy_args -> method policy_args)
    (args : policy_args) : method policy_args :=
  eps <- float_or EPSILON (arg_epsilon args) ;;
  gam <- float_or GAMMA (arg_gamma args) ;;
  modify (set_huber_loss false) ;;
  modify (set_use_softmax_sampling true) ;;
  modify (set_epsilon_decay (9 # 10)) ;;
  modify (set_min_epsilon MIN_EPSILON) ;;
  modify (set_learning_rate (1 # 10000)) ;;
  modify (set_batch_size 96) ;;
  modify (set_doubleDQN false) ;;
  modify (set_save_model_round 250) ;;
  _additional_args (mkArgs (Some (inr eps)) (Some (inr gam))).

(** [_save_model]: the target network gets the values of the live
    network's weights. *)
Definition _save_model : method unit :=
  s <- get ;;
  modify (set_old_model (model s)).

(** [init_run]. [clone_model] builds a second network of the same shape
    with weights of its own, which [_save_model] overwrites at once. *)
Definition init_run : method unit :=
  log StartingInit None ;;
  modify (set_r_sum 0) ;;
  modify (set_model _build_model) ;;
  modify (set_old_model _build_model) ;;
  _save_model ;;
  modify (set_memory (new_buffer BUFFER_SIZE (4 # 10))) ;;
  log InitFinished None ;;
  modify (set_num_of_samples 0) ;;
  modify (set_sum_of_loss 0).

(** *** learn *)

(** Lines 97-112: the statistics of the logging window. The sample count
    is 0 only while the loss sum is the integer 0 that [init_run] or line
    104 assigned (lines 127 and 128 add to both), so line 103 divides two
    integers and raises ZeroDivisionError on a count of 0. *)
Definition learn_window (round : Z) (reward : Q) : method unit :=
  try_except
    (if round mod 100 =? 0 then
       s <- get ;;
       (if round >? game_duration s - score_scope s then
          log (RewardsScore (r_sum s) (epsilon s) (buffer_len (memory s)))
              (Some VALUE)
        else
          total_loss <- py_truediv (sum_of_loss s) (num_of_samples s) ;;
          modify (set_num_of_samples 0) ;;
          modify (set_sum_of_loss 0) ;;
          log (RewardsLoss (r_sum s) (epsilon s) (buffer_len (memory s))
                 total_loss) (Some VALUE)) ;;
       modify (set_r_sum 0)
     else
       s <- get ;;
       modify (set_r_sum (r_sum s + reward)%Q))
    (fun e =>
       log SomethingWentWrong (Some EXCEPTION) ;;
       log (ExceptionText e) (Some EXCEPTION)).

(** Lines 116-120, one row of the batch: the TD target of a sample. *)
Definition td_target (s : self) (x : sample) : exn + Q :=
  if doubleDQN s then
    match argmax (predict (model s) (s_new x)) with
    | None => inl ValueError
    | Some a =>
        match predict (old_model s) (s_new x) !! a with
        | None => inl IndexError
        | Some q => inr (s_reward x + gamma s * q)%Q
        end
    end
  else
    match amax (predict (old_model s) (s_new x)) with
    | None => inl ValueError
    | Some q => inr (s_reward x + gamma s * q)%Q
    end.

(** The rows of a batch in order, up to the first that raises. *)
Fixpoint for_each {A B} (f : A -> exn + B) (l : list A) : exn + list B :=
  match l with
  | [] => inr []
  | x :: l' =>
      match f x with
      | inl e => inl e
      | inr y =>
          match for_each f l' with
          | inl e => inl e
          | inr ys => inr (y :: ys)
          end
      end
  end.

(** Line 124, one row: [target_f[i, actions[i]] = target[i]]. *)
Definition assign_target (x : sample) (row : list Q) (t : Q) : exn + list Q :=
  if decide (s_action x < length row)%nat
  then inr (<[s_action x := t]> row)
  else inl IndexError.

(** Lines 121 and 124: the vector regressed on for one sample. *)
Definition target_row (s : self) (xt : sample * Q) : exn + list Q :=
  assign_target xt.1 (predict (model s) (s_prev xt.1)) xt.2.

(** Lines 114-134: one training step on a sampled batch. *)
Definition learn_train (r : rng) : method unit :=
  s <- get ;;
  batch <- lift (buffer_sample (memory s) (batch_size s) (6 # 10) r) ;;
  target <- lift (for_each (td_target s) batch) ;;
  try_except
    (target_f <- lift (for_each (target_row s) (zip batch target)) ;;
     modify (emit (Fit (map s_prev batch) target_f (map s_weight batch))) ;;
     let hist :=
       fit (model s) (map s_prev batch) target_f (map s_weight batch) in
     modify (set_model hist.1) ;;
     loss <- lift hist.2 ;;
     s1 <- get ;;
     modify (set_sum_of_loss (sum_of_loss s1 + loss)%Q) ;;
     modify (set_num_of_samples (num_of_samples s1 + 1)) ;;
     let mae :=
       zip_with abs_diff_sum target_f
         (map (predict hist.1) (map s_prev batch)) in
     let prioritized_replay_eps : Q := 1 # 1000000 in
     m <- lift (update_priorities (memory s) (map s_idx batch)
                  (map (fun x => x + prioritized_replay_eps)%Q mae)) ;;
     modify (set_memory m))
    (fun e => modify (emit (Print e))).

(** Lines 136-139: target synchronisation and epsilon decay. *)
Definition learn_schedule (round : Z) : method unit :=
  s <- get ;;
  m <- py_mod round (save_model_round s) ;;
  when ((m =? 0) && (round >? 0)) _save_model ;;
  s <- get ;;
  when ((round mod 200 =? 0) && (round >? 0) && Qlt_bool 0 (epsilon s))
    (modify (set_epsilon (Qmax (epsilon s * epsilon_decay s) (min_epsilon s)))).

(** The arguments of a call of [learn], and the random source that
    [memory.sample] draws from during it. *)
Record learn_args : Type := mkLearn {
  l_round : Z;
  l_prev_state : option game_state;
  l_prev_action : option action;
  l_reward : Q;
  l_new_state : game_state;
  l_too_slow : bool;
  l_rng : rng
}.

Definition learn (a : learn_args) : method unit :=
  learn_window (l_round a) (l_reward a) ;;
  learn_train (l_rng a) ;;
  learn_schedule (l_round a).

(** *** act *)

(** [ACTIONS.index(x)]: the first position of [x], if any. *)
Fixpoint index (l : list action) (x : action) : option nat :=
  match l with
  | [] => None
  | y :: l' => if decide (y = x) then Some 0%nat else S <$> index l' x
  end.

(** [np.random.choice(ACTIONS)]: the draw is [pick]. *)
Definition random_choice (pick : nat) : method action :=
  orelse (ACTIONS !! (pick mod length ACTIONS)%nat) ValueError.

(** [np.random.choice(ACTIONS, p=softmax(q / eps))]. numpy divides by zero
    without raising, to an infinity or a NaN; the softmax of such a row has
    a NaN, which [choice] refuses, as it refuses [p] of another length
    than [ACTIONS]. (In doubles a quotient can also overflow for an
    epsilon that is tiny but not 0; rationals do not show that.) *)
Definition softmax_choice (q : list Q) (eps : Q) (pick : nat) : method action :=
  modify (emit (Temperature q eps)) ;;
  if Qeq_bool eps 0 then raise ValueError
  else if decide (length q = length ACTIONS) then random_choice pick
  else raise ValueError.

(** The arguments of a call of [act], and what the random generator
    yields during it: the bits of [np.random.rand()] and the draw of
    [np.random.choice]. *)
Record act_args : Type := mkAct {
  a_round : Z;
  a_prev_state : option game_state;
  a_prev_action : option action;
  a_reward : Q;
  a_new_state : game_state;
  a_too_slow : bool;
  a_rand : N;
  a_pick : nat
}.

(** Lines 142-145. *)
Definition act_money_time (round : Z) : method unit :=
  s <- get ;;
  when (round >? game_duration s - score_scope s)
    (modify (set_use_softmax_sampling false) ;;
     modify (set_epsilon 0)).

(** Lines 149-151. *)
Definition act_remember (a : act_args) (new_state_repr : state_repr)
    : method unit :=
  match a_prev_state a with
  | Some prev_state =>
      let prev_state_repr := get_state_repr prev_state in
      i <- orelse (a_prev_action a ≫= index ACTIONS) ValueError ;;
      s <- get ;;
      modify (set_memory (buffer_add (memory s) prev_state_repr i
                            (a_reward a) new_state_repr 0))
  | None => ret tt
  end.

(** Lines 160-162: the action of the largest predicted value. *)
Definition greedy (w : weights) (new_state_repr : state_repr) : exn + action :=
  match argmax (predict w new_state_repr) with
  | None => inl ValueError
  | Some i =>
      match ACTIONS !! i with
      | None => inl IndexError
      | Some x => inr x
      end
  end.

(** Lines 153-162. *)
Definition act_choose (a : act_args) (new_state_repr : state_repr)
    : method action :=
  s <- get ;;
  if use_softmax_sampling s then
    softmax_choice (predict (model s) new_state_repr) (epsilon s) (a_pick a)
  else if Qlt_bool (np_random_rand (a_rand a)) (epsilon s) then
    random_choice (a_pick a)
  else
    lift (greedy (model s) new_state_repr).

Definition act (a : act_args) : method action :=
  act_money_time (a_round a) ;;
  let new_state_repr := get_state_repr (a_new_state a) in
  act_remember a new_state_repr ;;
  act_choose a new_state_repr.

(** ** Runs

    The game calls [act] and [learn] one after the other, for as long as
    it likes; a call that raises leaves the object as it was at the raise. *)

Inductive call : Type :=
  | Act (a : act_args)
  | Learn (a : learn_args).

Definition step (s : self) (c : call) : self :=
  match c with
  | Act a => exec (act a) s
  | Learn a => exec (learn a) s
  end.

Definition run (s : self) (cs : list call) : self := fold_left step cs s.

(** [act] is called in the final scoring window ("money-time"). *)
Definition money_time (s : self) (c : call) : bool :=
  match c with
  | Act a => a_round a >? game_duration s - score_scope s
  | Learn _ => false
  end.

(** ** Comparisons *)

Lemma Qlt_bool_iff x y : Qlt_bool x y = true <-> (x < y)%Q.
Proof.
  unfold Qlt_bool. rewrite negb_true_iff. split; intros H.
  - apply Qnot_le_lt. intros Hle. apply Qle_bool_iff in Hle. congruence.
  - destruct (Qle_bool y x) eqn:E; [|reflexivity].
    apply Qle_bool_iff in E. exfalso. revert E. now apply Qlt_not_le.
Qed.

Lemma Qlt_bool_false x y : Qlt_bool x y = false <-> (y <= x)%Q.
Proof.
  unfold Qlt_bool. rewrite negb_false_iff. apply Qle_bool_iff.
Qed.

(** ** Reasoning about methods *)

Lemma exec_bind {A B} (m : method A) (k : A -> method B) s :
  exec (bind m k) s =
  match result m s with
  | inr x => exec (k x) (exec m s)
  | inl _ => exec m s
  end.
Proof.
  unfold exec, result, bind. destruct (m s) as [s' [e|x]]; reflexivity.
Qed.

Lemma result_bind {A B} (m : method A) (k : A -> method B) s :
  result (bind m k) s =
  match result m s with
  | inr x => result (k x) (exec m s)
  | inl e => inl e
  end.
Proof.
  unfold exec, result, bind. destruct (m s) as [s' [e|x]]; reflexivity.
Qed.

(** A method preserves a relation between the object before and after. *)
Definition preserves {A} (R : relation self) (m : method A) : Prop :=
  forall s, R s (exec m s).

(** The attribute [f] has the value it had. *)
Definition keeps {A} (f : self -> A) : relation self :=
  fun s s' => f s' = f s.

#[local] Instance keeps_preorder {A} (f : self -> A) : PreOrder (keeps f).
Proof.
  split.
  - intros s. reflexivity.
  - intros s1 s2 s3 H12 H23. unfold keeps in *. congruence.
Qed.

Section Preserves.
Context (R : relation self) `{!PreOrder R}.

Lemma preserves_ret {A} (x : A) : preserves R (ret x).
Proof. intros s. reflexivity. Qed.

Lemma preserves_raise {A} (e : exn) : preserves R (raise (A:=A) e).
Proof. intros s. reflexivity. Qed.

Lemma preserves_get : preserves R get.
Proof. intros s. reflexivity. Qed.

Lemma preserves_lift {A} (r : exn + A) : preserves R (lift r).
Proof. intros s. reflexivity. Qed.

Lemma preserves_orelse {A} (o : option A) e : preserves R (orelse o e).
Proof. intros s. destruct o; reflexivity. Qed.

Lemma preserves_modify (f : self -> self) :
  (forall s, R s (f s)) -> preserves R (modify f).
Proof. intros H s. apply H. Qed.

Lemma preserves_bind {A B} (m : method A) (k : A -> method B) :
  preserves R m -> (forall x, preserves R (k x)) -> preserves R (bind m k).
Proof.
  intros Hm Hk s. rewrite exec_bind. destruct (result m s) as [e|x].
  - apply Hm.
  - etransitivity; [apply Hm | apply Hk].
Qed.

Lemma preserves_try_except {A} (body : method A) handler :
  preserves R body -> (forall e, preserves R (handler e)) ->
  preserves R (try_except body handler).
Proof.
  intros Hb Hh s. specialize (Hb s). unfold exec, try_except in *.
  destruct (body s) as [s' [e|x]]; simpl in *; [|exact Hb].
  etransitivity; [exact Hb | apply Hh].
Qed.

Lemma preserves_when c (body : method unit) :
  preserves R body -> preserves R (when c body).
Proof. intros H. destruct c; [exact H | apply preserves_ret]. Qed.

Lemma preserves_py_mod a b : preserves R (py_mod a b).
Proof. intros s. unfold py_mod. destruct (b =? 0); reflexivity. Qed.

Lemma preserves_py_truediv a b : preserves R (py_truediv a b).
Proof. intros s. unfold py_truediv. destruct (b =? 0); reflexivity. Qed.

End Preserves.

(** Walks through a method body; what is left are the assignments. *)
Ltac frame_step :=
  lazymatch goal with
  | |- PreOrder _ => exact _
  | |- preserves _ (bind _ _) => apply preserves_bind; [| |intros ?]
  | |- preserves _ (try_except _ _) => apply preserves_try_except; [| |intros ?]
  | |- preserves _ (when _ _) => apply preserves_when
  | |- preserves _ (ret _) => apply preserves_ret
  | |- preserves _ (raise _) => apply preserves_raise
  | |- preserves _ get => apply preserves_get
  | |- preserves _ (lift _) => apply preserves_lift
  | |- preserves _ (orelse _ _) => apply preserves_orelse
  | |- preserves _ (py_mod _ _) => apply preserves_py_mod
  | |- preserves _ (py_truediv _ _) => apply preserves_py_truediv
  | |- preserves _ (modify _) => apply preserves_modify; intros ?
  | |- preserves _ (if ?c then _ else _) => destruct c
  | |- preserves _ (match ?x with _ => _ end) => destruct x
  end.

Ltac frame :=
  unfold learn, learn_window, learn_train, learn_schedule, _save_model, log,
    act, act_money_time, act_remember, act_choose, softmax_choice,
    random_choice;
  cbv zeta; repeat frame_step; try reflexivity.

(** ** What each method leaves alone *)

(** The attributes that no call of [learn] or [act] assigns. *)
Definition settings (s : self) : Z * Z * Q * Q * Q * Z * bool * Z :=
  (game_duration s, score_scope s, gamma s, epsilon_decay s, min_epsilon s,
   batch_size s, doubleDQN s, save_model_round s).

Lemma learn_keeps_settings a : preserves (keeps settings) (learn a).
Proof. frame. Qed.

Lemma act_keeps_settings a : preserves (keeps settings) (act a).
Proof. frame. Qed.

Lemma learn_window_keeps_epsilon round reward :
  preserves (keeps epsilon) (learn_window round reward).
Proof. frame. Qed.

Lemma learn_train_keeps_epsilon r : preserves (keeps epsilon) (learn_train r).
Proof. frame. Qed.

Lemma learn_keeps_use_softmax_sampling a :
  preserves (keeps use_softmax_sampling) (learn a).
Proof. frame. Qed.

Lemma learn_window_keeps_weights round reward :
  preserves (keeps (fun s => (model s, old_model s))) (learn_window round reward).
Proof. frame. Qed.

Lemma learn_train_keeps_old_model r : preserves (keeps old_model) (learn_train r).
Proof. frame. Qed.

Lemma act_keeps_weights a :
  preserves (keeps (fun s => (model s, old_model s))) (act a).
Proof. frame. Qed.

Lemma learn_schedule_keeps_model round :
  preserves (keeps model) (learn_schedule round).
Proof. frame. Qed.

Lemma act_choose_keeps_epsilon a r :
  preserves (keeps (fun s => (epsilon s, use_softmax_sampling s)))
    (act_remember a r ;; act_choose a r).
Proof. frame. Qed.

(** ** Epsilon *)

(** The round is a positive multiple of 200 and epsilon is positive. *)
Definition decay_due (round : Z) (s : self) : bool :=
  (round mod 200 =? 0) && (round >? 0) && Qlt_bool 0 (epsilon s).

(** The round is a positive multiple of [save_model_round]. *)
Definition sync_due (round : Z) (s : self) : bool :=
  (round mod save_model_round s =? 0) && (round >? 0).

Lemma learn_schedule_unfold round s :
  learn_schedule round s =
  if save_model_round s =? 0 then (s, inl ZeroDivisionError)
  else
    let s1 := if sync_due round s then set_old_model (model s) s else s in
    (if decay_due round s
     then set_epsilon (Qmax (epsilon s * epsilon_decay s) (min_epsilon s)) s1
     else s1, inr tt).
Proof.
  unfold learn_schedule, decay_due, sync_due, _save_model, py_mod, bind, get,
    when, modify, ret, raise.
  destruct (save_model_round s =? 0); [reflexivity|].
  destruct (round mod save_model_round s =? 0), (round >? 0),
    (round mod 200 =? 0); simpl;
    destruct (Qlt_bool 0 (epsilon s)); reflexivity.
Qed.

Lemma learn_window_returns round reward s :
  result (learn_window round reward) s = inr tt.
Proof.
  unfold result, learn_window, try_except, log, py_truediv, bind, get, modify,
    ret, raise.
  destruct (round mod 100 =? 0); [|reflexivity].
  destruct (round >? game_duration s - score_scope s); [reflexivity|].
  destruct (num_of_samples s =? 0); reflexivity.
Qed.

(** The object when [learn] reaches line 136, if it does. *)
Definition before_schedule (a : learn_args) (s : self) : self :=
  exec (learn_train (l_rng a)) (exec (learn_window (l_round a) (l_reward a)) s).

Lemma learn_unfold a s :
  learn a s =
  match result (learn_train (l_rng a))
          (exec (learn_window (l_round a) (l_reward a)) s) with
  | inl e => (before_schedule a s, inl e)
  | inr _ => learn_schedule (l_round a) (before_schedule a s)
  end.
Proof.
  unfold learn, before_schedule.
  pose proof (learn_window_returns (l_round a) (l_reward a) s) as Hw.
  unfold result, exec, bind in *.
  destruct (learn_window (l_round a) (l_reward a) s) as [s1 r1].
  simpl in *. subst r1.
  destruct (learn_train (l_rng a) s1) as [s2 [e|[]]]; reflexivity.
Qed.

Lemma before_schedule_epsilon a s : epsilon (before_schedule a s) = epsilon s.
Proof.
  unfold before_schedule.
  rewrite (learn_train_keeps_epsilon _ _).
  apply (learn_window_keeps_epsilon _ _).
Qed.

Lemma before_schedule_settings a s :
  settings (before_schedule a s) = settings s.
Proof.
  pose proof (learn_keeps_settings a) as H. unfold learn in H.
  unfold before_schedule.
  assert (Hw : preserves (keeps settings) (learn_window (l_round a) (l_reward a)))
    by frame.
  assert (Ht : preserves (keeps settings) (learn_train (l_rng a))) by frame.
  rewrite (Ht _). apply (Hw _).
Qed.

Lemma settings_decay s s' :
  settings s' = settings s ->
  epsilon_decay s' = epsilon_decay s /\ min_epsilon s' = min_epsilon s /\
  game_duration s' = game_duration s /\ score_scope s' = score_scope s /\
  save_model_round s' = save_model_round s.
Proof. unfold settings. intros H. inversion H. auto. Qed.

(** What a call of [learn] does to epsilon. *)
Lemma learn_epsilon a s :
  epsilon (exec (learn a) s) =
  match result (learn a) s with
  | inr _ =>
      if decay_due (l_round a) s
      then Qmax (epsilon s * epsilon_decay s) (min_epsilon s)
      else epsilon s
  | inl _ => epsilon s
  end.
Proof.
  unfold exec, result. rewrite learn_unfold.
  pose proof (before_schedule_epsilon a s) as He.
  destruct (settings_decay _ _ (before_schedule_settings a s))
    as (Hd & Hm & _).
  destruct (result _ _) as [e|[]]; simpl; [exact He|].
  rewrite learn_schedule_unfold.
  unfold decay_due. rewrite He, Hd, Hm.
  destruct (save_model_round _ =? 0); simpl; [exact He|].
  destruct (_ && _); simpl; [reflexivity|].
  destruct (sync_due _ _); exact He.
Qed.

(** What a call of [act] does to epsilon and to the sampling mode. *)
Lemma act_epsilon a s :
  epsilon (exec (act a) s) =
  if a_round a >? game_duration s - score_scope s then 0%Q else epsilon s.
Proof.
  unfold act. rewrite exec_bind.
  assert (Hr : result (act_money_time (a_round a)) s = inr tt).
  { unfold result, act_money_time, bind, get, when, modify, ret.
    destruct (_ >? _); reflexivity. }
  rewrite Hr.
  pose proof (act_choose_keeps_epsilon a (get_state_repr (a_new_state a))
                (exec (act_money_time (a_round a)) s)) as Hk.
  unfold keeps in Hk. inversion Hk as [[He Hu]]. rewrite He.
  unfold exec, act_money_time, bind, get, when, modify, ret.
  destruct (_ >? _); reflexivity.
Qed.

Lemma act_use_softmax_sampling a s :
  use_softmax_sampling (exec (act a) s) =
  if a_round a >? game_duration s - score_scope s then false
  else use_softmax_sampling s.
Proof.
  unfold act. rewrite exec_bind.
  assert (Hr : result (act_money_time (a_round a)) s = inr tt).
  { unfold result, act_money_time, bind, get, when, modify, ret.
    destruct (_ >? _); reflexivity. }
  rewrite Hr.
  pose proof (act_choose_keeps_epsilon a (get_state_repr (a_new_state a))
                (exec (act_money_time (a_round a)) s)) as Hk.
  unfold keeps in Hk. inversion Hk as [[He Hu]]. rewrite Hu.
  unfold exec, act_money_time, bind, get, when, modify, ret.
  destruct (_ >? _); reflexivity.
Qed.

Lemma step_settings s c : settings (step s c) = settings s.
Proof.
  destruct c as [a|a]; simpl.
  - apply (act_keeps_settings a s).
  - apply (learn_keeps_settings a s).
Qed.

Lemma run_snoc s cs c : run s (cs ++ [c]) = step (run s cs) c.
Proof. unfold run. rewrite fold_left_app. reflexivity. Qed.

Lemma run_settings s cs : settings (run s cs) = settings s.
Proof.
  revert s. induction cs as [|c cs IH]; intros s; simpl; [reflexivity|].
  rewrite IH. apply step_settings.
Qed.

(** The three things a call can do to epsilon. *)
Lemma step_epsilon s c :
  epsilon (step s c) = epsilon s \/
  (money_time s c = true /\ epsilon (step s c) = 0%Q) \/
  (exists a, c = Learn a /\ decay_due (l_round a) s = true /\
     epsilon (step s c) = Qmax (epsilon s * epsilon_decay s) (min_epsilon s)).
Proof.
  destruct c as [a|a]; simpl.
  - rewrite act_epsilon. destruct (_ >? _); auto.
  - rewrite learn_epsilon. destruct (result _ _); auto.
    destruct (decay_due _ _) eqn:E; [|auto].
    right; right. exists a. auto.
Qed.

Lemma money_time_settings s s' c :
  settings s' = settings s -> money_time s' c = money_time s c.
Proof.
  intros H. destruct (settings_decay _ _ H) as (_ & _ & Hg & Hs & _).
  destruct c; simpl; [|reflexivity]. rewrite Hg, Hs. reflexivity.
Qed.

Lemma decay_due_positive round s : decay_due round s = true -> (0 < epsilon s)%Q.
Proof.
  unfold decay_due. intros H.
  apply andb_true_iff in H as [_ H]. now apply Qlt_bool_iff.
Qed.

Lemma decay_due_zero round s : epsilon s = 0%Q -> decay_due round s = false.
Proof.
  unfold decay_due. intros ->. apply andb_false_r.
Qed.

Lemma existsb_pointwise {A} (f g : A -> bool) l :
  (forall x, f x = g x) -> existsb f l = existsb g l.
Proof.
  intros H. induction l as [|x l IH]; simpl; [reflexivity|].
  now rewrite H, IH.
Qed.

(** Once epsilon is 0 it is 0 for good. *)
Lemma run_epsilon_zero s cs : epsilon s = 0%Q -> epsilon (run s cs) = 0%Q.
Proof.
  revert s. induction cs as [|c cs IH]; intros s H; simpl; [exact H|].
  apply IH.
  destruct (step_epsilon s c) as [E|[[_ E]|(a & _ & D & _)]].
  - congruence.
  - exact E.
  - rewrite (decay_due_zero _ _ H) in D. discriminate.
Qed.

Lemma run_after_money_time s0 cs :
  existsb (money_time s0) cs = true -> epsilon (run s0 cs) = 0%Q.
Proof.
  revert s0. induction cs as [|c cs IH]; intros s0; simpl; [discriminate|].
  destruct (money_time s0 c) eqn:E; simpl.
  - intros _. apply run_epsilon_zero.
    destruct c as [a|a]; simpl in *; [|discriminate].
    rewrite act_epsilon, E. reflexivity.
  - intros H. apply IH.
    rewrite <- H. apply existsb_pointwise. intros c'.
    apply money_time_settings, step_settings.
Qed.

Section Floor.
Variable s0 : self.
Hypothesis decay_le_1 : (epsilon_decay s0 <= 1)%Q.
Hypothesis min_nonneg : (0 <= min_epsilon s0)%Q.

(** Epsilon is 0 or at least [min_epsilon]. *)
Definition floored (s : self) : Prop :=
  settings s = settings s0 /\
  (epsilon s == 0 \/ min_epsilon s0 <= epsilon s)%Q.

Lemma floored_nonneg s : floored s -> (0 <= epsilon s)%Q.
Proof.
  intros [_ [H|H]].
  - rewrite H. apply Qle_refl.
  - eapply Qle_trans; eauto.
Qed.

Lemma floored_decay s round :
  floored s -> decay_due round s = true ->
  (min_epsilon s0 <= Qmax (epsilon s * epsilon_decay s) (min_epsilon s) /\
   Qmax (epsilon s * epsilon_decay s) (min_epsilon s) <= epsilon s)%Q.
Proof.
  intros [Hs Hf] D. apply decay_due_positive in D.
  destruct (settings_decay _ _ Hs) as (Hd & Hm & _). rewrite Hd, Hm.
  destruct Hf as [Hf|Hf]; [rewrite Hf in D; now apply Qlt_irrefl in D|].
  split; [apply Q.le_max_r|].
  apply Q.max_lub; [|exact Hf].
  rewrite <- (Qmult_1_r (epsilon s)) at 2.
  apply Qmult_le_l; assumption.
Qed.

Lemma step_floored s c : floored s -> floored (step s c).
Proof.
  intros Hf. split.
  - rewrite step_settings. apply Hf.
  - destruct (step_epsilon s c) as [E|[[_ E]|(a & _ & D & E)]]; rewrite E.
    + apply Hf.
    + left. reflexivity.
    + right. eapply floored_decay; eauto.
Qed.

Lemma step_non_increasing s c :
  floored s -> (epsilon (step s c) <= epsilon s)%Q.
Proof.
  intros Hf.
  destruct (step_epsilon s c) as [E|[[_ E]|(a & _ & D & E)]]; rewrite E.
  - apply Qle_refl.
  - now apply floored_nonneg.
  - eapply floored_decay; eauto.
Qed.

Lemma run_floored cs :
  (min_epsilon s0 <= epsilon s0)%Q -> floored (run s0 cs).
Proof.
  intros H0. induction cs as [|c cs IH] using rev_ind.
  - split; [reflexivity | right; exact H0].
  - rewrite run_snoc. now apply step_floored.
Qed.

Lemma run_above_min cs :
  (min_epsilon s0 <= epsilon s0)%Q ->
  existsb (money_time s0) cs = false ->
  (min_epsilon s0 <= epsilon (run s0 cs))%Q.
Proof.
  intros H0. induction cs as [|c cs IH] using rev_ind; intros Hm.
  - exact H0.
  - rewrite existsb_app in Hm. apply orb_false_iff in Hm as [Hcs Hc].
    simpl in Hc. rewrite orb_false_r in Hc.
    specialize (IH Hcs). rewrite run_snoc.
    pose proof (run_floored cs H0) as Hf.
    destruct (step_epsilon (run s0 cs) c) as [E|[[M _]|(a & _ & D & E)]].
    + rewrite E. exact IH.
    + rewrite (money_time_settings _ _ _ (run_settings s0 cs)) in M.
      congruence.
    + rewrite E. eapply floored_decay; eauto.
Qed.

End Floor.

(** C1, amended. In every run that starts with [min_epsilon <= epsilon]
    (and [0 <= min_epsilon], [epsilon_decay <= 1], as the fixed 0.33 and
    0.90 are), no call of [learn] or [act] increases epsilon; epsilon is at
    least [min_epsilon] as long as [act] has not been called in the final
    scoring window ([round > game_duration - score_scope]); from the first
    such call on it is 0. *)
Theorem epsilon_non_increasing (s0 : self) (cs : list call) (c : call) :
  (epsilon_decay s0 <= 1)%Q ->
  (0 <= min_epsilon s0)%Q ->
  (min_epsilon s0 <= epsilon s0)%Q ->
  (epsilon (step (run s0 cs) c) <= epsilon (run s0 cs))%Q /\
  (existsb (money_time s0) cs = false ->
   (min_epsilon s0 <= epsilon (run s0 cs))%Q) /\
  (existsb (money_time s0) cs = true -> epsilon (run s0 cs) = 0%Q).
Proof.
  intros Hd Hm H0. split; [|split].
  - apply (step_non_increasing s0 Hd Hm). now apply run_floored.
  - now apply run_above_min.
  - apply run_after_money_time.
Qed.

(** C10. After a call of [act] with [round > game_duration - score_scope]
    epsilon is exactly 0, and whatever calls of [learn] and [act] follow,
    it is still exactly 0: the decay of [learn] asks for [epsilon > 0]. *)
Theorem epsilon_zero_after_money_time (s : self) (a : act_args) (cs : list call) :
  a_round a > game_duration s - score_scope s ->
  epsilon (exec (act a) s) = 0%Q /\
  epsilon (run (exec (act a) s) cs) = 0%Q.
Proof.
  intros H.
  assert (E : epsilon (exec (act a) s) = 0%Q).
  { rewrite act_epsilon.
    destruct (Z.gtb_spec (a_round a) (game_duration s - score_scope s));
      [reflexivity | lia]. }
  split; [exact E | now apply run_epsilon_zero].
Qed.

(** ** What a method puts on record *)

(** The record grows at its end, by events that satisfy [P]. *)
Definition emits (P : event -> Prop) : relation self :=
  fun s s' => exists k, out s' = out s ++ k /\ Forall P k.

(** The events recorded from [s] to [s']. *)
Definition new_events (s s' : self) : list event :=
  drop (length (out s)) (out s').

#[local] Instance emits_preorder P : PreOrder (emits P).
Proof.
  split.
  - intros s. exists []. split; [now rewrite app_nil_r | constructor].
  - intros s1 s2 s3 (k1 & E1 & H1) (k2 & E2 & H2). exists (k1 ++ k2).
    split; [now rewrite E2, E1, app_assoc | now apply Forall_app].
Qed.

Lemma emit_emits (P : event -> Prop) ev s : P ev -> emits P s (emit ev s).
Proof. intros H. exists [ev]. split; [reflexivity | now repeat constructor]. Qed.

Lemma silent_emits (P : event -> Prop) s s' : out s' = out s -> emits P s s'.
Proof. intros H. exists []. split; [now rewrite app_nil_r | constructor]. Qed.

Lemma emits_weaken (P Q : event -> Prop) s s' :
  (forall ev, P ev -> Q ev) -> emits P s s' -> emits Q s s'.
Proof.
  intros HPQ (k & E & H). exists k. split; [exact E|].
  eapply Forall_impl; eauto.
Qed.

Lemma emits_new_events P s s' ev :
  emits P s s' -> ev ∈ new_events s s' -> P ev.
Proof.
  intros (k & E & H) Hev. unfold new_events in Hev.
  rewrite E, drop_app_length in Hev.
  rewrite Forall_forall in H. now apply H.
Qed.

Lemma run_emits P s cs :
  (forall s c, emits P s (step s c)) -> emits P s (run s cs).
Proof.
  intros H. revert s. induction cs as [|c cs IH]; intros s; simpl.
  - reflexivity.
  - etransitivity; [apply H | apply IH].
Qed.

Definition is_temperature (ev : event) : Prop :=
  match ev with Temperature _ _ => True | _ => False end.

Definition is_fit (ev : event) : Prop :=
  match ev with Fit _ _ _ => True | _ => False end.

(** For methods that record no event of some kind. *)
Ltac quiet :=
  frame;
  first [ apply emit_emits; simpl; tauto
        | apply silent_emits; reflexivity ].

(** ** The softmax temperature *)

Lemma learn_no_temperature a :
  preserves (emits (fun ev => ~ is_temperature ev)) (learn a).
Proof. quiet. Qed.

Lemma act_money_time_no_temperature round :
  preserves (emits (fun ev => ~ is_temperature ev)) (act_money_time round).
Proof. quiet. Qed.

Lemma act_remember_no_temperature a r :
  preserves (emits (fun ev => ~ is_temperature ev)) (act_remember a r).
Proof. quiet. Qed.

(** The event is no temperature division, or one in softmax mode by [e]. *)
Definition divides_by (softmax : bool) (e : Q) (ev : event) : Prop :=
  forall q e', ev = Temperature q e' -> softmax = true /\ e' = e.

Lemma no_temperature_divides_by softmax e ev :
  ~ is_temperature ev -> divides_by softmax e ev.
Proof. intros H q e' ->. now destruct H. Qed.

Lemma act_choose_temperature a r s :
  emits (divides_by (use_softmax_sampling s) (epsilon s)) s
    (exec (act_choose a r) s).
Proof.
  unfold act_choose, softmax_choice, random_choice, exec, bind, get, modify,
    lift, orelse, ret, raise.
  destruct (use_softmax_sampling s) eqn:Hu; simpl.
  - assert (H : emits (divides_by true (epsilon s)) s
                  (emit (Temperature (predict (model s) r) (epsilon s)) s)).
    { apply emit_emits. intros q e' [= _ <-]. auto. }
    destruct (Qeq_bool _ _); simpl; [exact H|].
    destruct (decide _); simpl; [|exact H].
    destruct (ACTIONS !! _); exact H.
  - destruct (Qlt_bool _ _); simpl.
    + destruct (ACTIONS !! _); reflexivity.
    + reflexivity.
Qed.

Lemma act_money_time_returns round s :
  result (act_money_time round) s = inr tt.
Proof.
  unfold result, act_money_time, bind, get, when, modify, ret.
  destruct (_ >? _); reflexivity.
Qed.

Lemma act_money_time_unfold round s :
  exec (act_money_time round) s =
  if round >? game_duration s - score_scope s
  then set_epsilon 0 (set_use_softmax_sampling false s) else s.
Proof.
  unfold exec, act_money_time, bind, get, when, modify, ret.
  destruct (_ >? _); reflexivity.
Qed.

Lemma act_remember_keeps a r :
  preserves (keeps (fun s => (epsilon s, use_softmax_sampling s, model s)))
    (act_remember a r).
Proof. frame. Qed.

(** A division by the temperature that [act] performs is by the epsilon
    that [act] found, and [act] found the softmax mode on. *)
Lemma act_temperature a s :
  emits (divides_by (use_softmax_sampling s) (epsilon s)) s (exec (act a) s).
Proof.
  unfold act. rewrite exec_bind, act_money_time_returns, exec_bind.
  set (r := get_state_repr (a_new_state a)).
  set (s1 := exec (act_money_time (a_round a)) s).
  set (P := divides_by (use_softmax_sampling s) (epsilon s)).
  assert (H1 : emits P s s1).
  { eapply emits_weaken; [apply no_temperature_divides_by|].
    apply act_money_time_no_temperature. }
  assert (H2 : emits P s1 (exec (act_remember a r) s1)).
  { eapply emits_weaken; [apply no_temperature_divides_by|].
    apply act_remember_no_temperature. }
  pose proof (act_remember_keeps a r s1) as Hk.
  unfold keeps in Hk. injection Hk as He Hu _.
  destruct (result (act_remember a r) s1).
  - etransitivity; eassumption.
  - etransitivity; [exact H1|]. etransitivity; [exact H2|].
    eapply emits_weaken; [|apply act_choose_temperature].
    intros ev Hev q e' E. destruct (Hev q e' E) as [Hs ->].
    rewrite Hu in Hs. rewrite He. subst s1.
    rewrite act_money_time_unfold in *.
    destruct (_ >? _); simpl in *; [discriminate | auto].
Qed.

Section Temperature.
Variable s0 : self.
Hypothesis min_positive : (0 < min_epsilon s0)%Q.

(** The temperature of a division, if the event is one, is positive. *)
Definition positive_temperature (ev : event) : Prop :=
  forall q e, ev = Temperature q e -> (0 < e)%Q.

(** While the softmax mode is on epsilon is positive. *)
Definition warm (s : self) : Prop :=
  settings s = settings s0 /\
  (use_softmax_sampling s = true -> (0 < epsilon s)%Q).

Lemma step_warm s c : warm s -> warm (step s c).
Proof.
  intros (Hs & Hu). split.
  - rewrite step_settings. exact Hs.
  - destruct c as [a|a]; simpl.
    + rewrite act_use_softmax_sampling, act_epsilon.
      destruct (_ >? _); [discriminate | exact Hu].
    + rewrite (learn_keeps_use_softmax_sampling a s). intros Hsm.
      destruct (step_epsilon s (Learn a)) as [E|[[M _]|(a' & _ & D & E)]];
        simpl in *.
      * rewrite E. auto.
      * discriminate.
      * rewrite E. destruct (settings_decay _ _ Hs) as (_ & Hm & _).
        rewrite Hm. eapply Qlt_le_trans; [exact min_positive|].
        apply Q.le_max_r.
Qed.

Lemma step_positive_temperature s c :
  warm s -> emits positive_temperature s (step s c).
Proof.
  intros (_ & Hu). destruct c as [a|a]; simpl.
  - eapply emits_weaken; [|apply act_temperature].
    intros ev Hev q e E. destruct (Hev q e E) as [Hs ->]. auto.
  - eapply emits_weaken; [|apply learn_no_temperature].
    intros ev Hev q e ->. now destruct Hev.
Qed.

Lemma run_warm cs :
  (0 < epsilon s0)%Q ->
  warm (run s0 cs) /\ emits positive_temperature s0 (run s0 cs).
Proof.
  intros H0. induction cs as [|c cs [IHw IHe]] using rev_ind.
  - split; [split; auto | reflexivity].
  - rewrite run_snoc. split; [now apply step_warm|].
    etransitivity; [exact IHe | now apply step_positive_temperature].
Qed.

End Temperature.

(** C8. In a run that starts with [epsilon > 0] (and the positive
    [min_epsilon] of [cast_string_args]), every division [Q(state) / epsilon]
    that [act] performs on its softmax branch divides by a positive
    epsilon, hence not by zero: [act] sets epsilon to 0 only together with
    turning the softmax branch off, and [learn] keeps a positive epsilon
    positive. *)
Theorem softmax_temperature_nonzero (s0 : self) (cs : list call) q e :
  (0 < epsilon s0)%Q ->
  (0 < min_epsilon s0)%Q ->
  Temperature q e ∈ new_events s0 (run s0 cs) ->
  (0 < e)%Q /\ ~ (e == 0)%Q.
Proof.
  intros H0 Hm H.
  destruct (run_warm s0 Hm cs H0) as [_ He].
  assert (Hpos : (0 < e)%Q)
    by exact (emits_new_events _ _ _ _ He H q e eq_refl).
  split; [exact Hpos|].
  intros E. rewrite E in Hpos. now apply Qlt_irrefl in Hpos.
Qed.

(** ** Money-time *)

Lemma np_random_rand_nonneg bits : Qlt_bool (np_random_rand bits) 0 = false.
Proof.
  apply Qlt_bool_false. unfold np_random_rand, Qle. simpl.
  rewrite Z.mul_1_r. apply N2Z.is_nonneg.
Qed.

(** What [act] returns when nothing random is consulted. *)
Definition act_greedy (w : weights) (a : act_args) : exn + action :=
  match a_prev_state a with
  | Some _ =>
      match a_prev_action a ≫= index ACTIONS with
      | None => inl ValueError
      | Some _ => greedy w (get_state_repr (a_new_state a))
      end
  | None => greedy w (get_state_repr (a_new_state a))
  end.

Lemma act_result_greedy a s :
  use_softmax_sampling s = false -> epsilon s = 0%Q ->
  result (act a) s = act_greedy (model s) a.
Proof.
  intros Hu He.
  unfold act, act_greedy, act_money_time, act_remember, act_choose, result,
    bind, get, when, modify, orelse, lift, ret, raise.
  destruct (_ >? _); simpl;
    destruct (a_prev_state a); simpl;
    try destruct (a_prev_action a ≫= index ACTIONS); simpl;
    rewrite ?Hu, ?He, ?np_random_rand_nonneg; reflexivity.
Qed.

(** Exploration is off. *)
Definition greedy_mode (s : self) : Prop :=
  use_softmax_sampling s = false /\ epsilon s = 0%Q.

Lemma step_greedy_mode s c : greedy_mode s -> greedy_mode (step s c).
Proof.
  intros [Hu He]. split.
  - destruct c as [a|a]; simpl.
    + rewrite act_use_softmax_sampling. destruct (_ >? _); auto.
    + now rewrite (learn_keeps_use_softmax_sampling a s).
  - apply (run_epsilon_zero s [c] He).
Qed.

Lemma run_greedy_mode s cs : greedy_mode s -> greedy_mode (run s cs).
Proof.
  revert s. induction cs as [|c cs IH]; intros s H; simpl; [exact H|].
  apply IH, step_greedy_mode, H.
Qed.

(** C6. After a call of [act] with [round > game_duration - score_scope],
    whatever calls follow, a call of [act] returns what [act_greedy] says:
    a function of the live network's weights and of the arguments that
    reads neither random value; and an action it returns is the [greedy]
    one, a function of the weights and the encoded new state alone. *)
Theorem act_greedy_after_money_time
    (s : self) (a0 : act_args) (cs : list call) (a : act_args) :
  a_round a0 > game_duration s - score_scope s ->
  let s' := run (exec (act a0) s) cs in
  result (act a) s' = act_greedy (model s') a /\
  (forall x, result (act a) s' = inr x ->
     greedy (model s') (get_state_repr (a_new_state a)) = inr x).
Proof.
  intros H s'.
  assert (G : greedy_mode s').
  { apply run_greedy_mode. split.
    - rewrite act_use_softmax_sampling.
      destruct (Z.gtb_spec (a_round a0) (game_duration s - score_scope s));
        [reflexivity | lia].
    - rewrite act_epsilon.
      destruct (Z.gtb_spec (a_round a0) (game_duration s - score_scope s));
        [reflexivity | lia]. }
  destruct G as [Hu He].
  assert (R : result (act a) s' = act_greedy (model s') a)
    by now apply act_result_greedy.
  split; [exact R|].
  intros x Hx. rewrite R in Hx. unfold act_greedy in Hx.
  destruct (a_prev_state a); [|exact Hx].
  destruct (a_prev_action a ≫= index ACTIONS); [exact Hx | discriminate].
Qed.

(** ** The target network *)

(** The call returns; it does not raise. *)
Definition returns (s : self) (c : call) : bool :=
  match c with
  | Act a => if result (act a) s is inr _ then true else false
  | Learn a => if result (learn a) s is inr _ then true else false
  end.

(** The call is a [learn] in a round that is a positive multiple of
    [save_model_round]. *)
Definition syncs (s : self) (c : call) : bool :=
  match c with
  | Act _ => false
  | Learn a => sync_due (l_round a) s
  end.

Lemma before_schedule_old_model a s : old_model (before_schedule a s) = old_model s.
Proof.
  unfold before_schedule. rewrite (learn_train_keeps_old_model _ _).
  pose proof (learn_window_keeps_weights (l_round a) (l_reward a) s) as H.
  unfold keeps in H. now inversion H.
Qed.

Lemma sync_due_settings round s s' :
  settings s' = settings s -> sync_due round s' = sync_due round s.
Proof.
  intros H. destruct (settings_decay _ _ H) as (_ & _ & _ & _ & Hr).
  unfold sync_due. now rewrite Hr.
Qed.

(** What a call of [learn] does to the two networks. *)
Lemma learn_weights a s :
  model (exec (learn a) s) = model (before_schedule a s) /\
  old_model (exec (learn a) s) =
  match result (learn a) s with
  | inr _ =>
      if sync_due (l_round a) s then model (before_schedule a s)
      else old_model s
  | inl _ => old_model s
  end.
Proof.
  unfold exec, result. rewrite learn_unfold.
  pose proof (before_schedule_old_model a s) as Ho.
  pose proof (sync_due_settings (l_round a) _ _ (before_schedule_settings a s))
    as Hs.
  destruct (result _ _) as [e|[]]; simpl; [split; [reflexivity|exact Ho]|].
  rewrite learn_schedule_unfold, Hs.
  destruct (save_model_round _ =? 0); simpl.
  - split; [reflexivity | exact Ho].
  - clear Hs. destruct (decay_due _ _), (sync_due _ _); simpl;
      (split; [reflexivity | try reflexivity; exact Ho]).
Qed.

(** C9. A call leaves the target network's weights as they were unless it
    is a call of [learn] in a round that is a positive multiple of
    [save_model_round]; when such a call returns, the target network's
    weights are the live network's weights, as they are after [init_run]. *)
Theorem target_network_sync (s : self) (c : call) :
  (syncs s c = false -> old_model (step s c) = old_model s) /\
  (syncs s c = true -> returns s c = true ->
   old_model (step s c) = model (step s c)) /\
  old_model (exec init_run s) = model (exec init_run s).
Proof.
  split; [|split].
  - destruct c as [a|a]; simpl; intros H.
    + pose proof (act_keeps_weights a s) as Hk.
      unfold keeps in Hk. now inversion Hk.
    + destruct (learn_weights a s) as [_ Ho]. rewrite Ho, H.
      now destruct (result _ _).
  - destruct c as [a|a]; simpl; [discriminate|]. intros H Hr.
    destruct (learn_weights a s) as [Hm Ho]. rewrite Ho, Hm, H.
    destruct (result _ _); [discriminate | reflexivity].
  - reflexivity.
Qed.

(** ** Decay events *)









(** ** The training step *)

(** The largest entry of a row, and a position that holds it, in the words
    of the specification. *)
Definition is_max (row : list Q) (q : Q) : Prop :=
  q ∈ row /\ forall y, y ∈ row -> (y <= q)%Q.

Definition is_argmax (row : list Q) (a : nat) : Prop :=
  exists q, row !! a = Some q /\ forall y, y ∈ row -> (y <= q)%Q.

(** The TD target in the words of the specification: reward plus gamma
    times the target network's largest value at the next state, or, for
    double DQN, times the target network's value of the action that the
    live network values most. *)
Definition td_target_spec (s : self) (x : sample) (t : Q) : Prop :=
  if doubleDQN s then
    exists a q,
      is_argmax (predict (model s) (s_new x)) a /\
      predict (old_model s) (s_new x) !! a = Some q /\
      t = (s_reward x + gamma s * q)%Q
  else
    exists q,
      is_max (predict (old_model s) (s_new x)) q /\
      t = (s_reward x + gamma s * q)%Q.

Lemma amax_from_spec row : forall m,
  (amax_from m row = m \/ amax_from m row ∈ row) /\
  (m <= amax_from m row)%Q /\
  (forall y, y ∈ row -> (y <= amax_from m row)%Q).
Proof.
  induction row as [|x row IH]; intros m; simpl.
  - split; [left; reflexivity|]. split; [apply Qle_refl|].
    intros y Hy. inversion Hy.
  - destruct (Qlt_bool m x) eqn:E.
    + destruct (IH x) as (Hin & Hle & Hall).
      apply Qlt_bool_iff in E. split; [|split].
      * right. destruct Hin as [->|Hin]; [left | now right].
      * eapply Qle_trans; [apply Qlt_le_weak, E | exact Hle].
      * intros y Hy. apply elem_of_cons in Hy as [->|Hy]; auto.
    + destruct (IH m) as (Hin & Hle & Hall).
      apply Qlt_bool_false in E. split; [|split].
      * destruct Hin as [Hin|Hin]; [left; exact Hin | right; now right].
      * exact Hle.
      * intros y Hy. apply elem_of_cons in Hy as [->|Hy]; auto.
        eapply Qle_trans; [exact E | exact Hle].
Qed.

Lemma amax_spec row q : amax row = Some q -> is_max row q.
Proof.
  destruct row as [|x row]; simpl; [discriminate|].
  intros [= <-]. destruct (amax_from_spec row x) as (Hin & Hle & Hall).
  split.
  - destruct Hin as [->|Hin]; [left | now right].
  - intros y Hy. apply elem_of_cons in Hy as [->|Hy]; auto.
Qed.

Lemma argmax_from_spec (full : list Q) row : forall i m k,
  full !! i = Some m ->
  (forall j y, (j < k)%nat -> full !! j = Some y -> (y <= m)%Q) ->
  drop k full = row ->
  is_argmax full (argmax_from i m k row).
Proof.
  induction row as [|x row IH]; intros i m k Hi Hbefore Hdrop; simpl.
  - exists m. split; [exact Hi|].
    intros y Hy. apply list_elem_of_lookup in Hy as [j Hj].
    apply (Hbefore j); [|exact Hj].
    apply lookup_lt_Some in Hj.
    apply (f_equal length) in Hdrop. rewrite length_drop in Hdrop.
    simpl in Hdrop. lia.
  - assert (Hk : full !! k = Some x).
    { rewrite <- (Nat.add_0_r k), <- lookup_drop, Hdrop. reflexivity. }
    assert (Hrest : drop (S k) full = row).
    { rewrite (drop_S _ _ _ Hk) in Hdrop. now inversion Hdrop. }
    destruct (Qlt_bool m x) eqn:E.
    + apply Qlt_bool_iff in E. apply IH; [exact Hk| |exact Hrest].
      intros j y Hj Hy. destruct (decide (j = k)) as [->|Hne].
      * rewrite Hk in Hy. inversion Hy. apply Qle_refl.
      * eapply Qle_trans; [|apply Qlt_le_weak, E].
        apply (Hbefore j); [lia | exact Hy].
    + apply Qlt_bool_false in E. apply IH; [exact Hi| |exact Hrest].
      intros j y Hj Hy. destruct (decide (j = k)) as [->|Hne].
      * rewrite Hk in Hy. inversion Hy. subst. exact E.
      * apply (Hbefore j); [lia | exact Hy].
Qed.

Lemma argmax_spec row a : argmax row = Some a -> is_argmax row a.
Proof.
  destruct row as [|x row]; simpl; [discriminate|].
  intros [= <-]. apply argmax_from_spec; [reflexivity| |reflexivity].
  intros j y Hj Hy. assert (j = 0)%nat as -> by lia.
  inversion Hy. apply Qle_refl.
Qed.

(** The code's TD target is the specification's. *)
Lemma td_target_sound s x t : td_target s x = inr t -> td_target_spec s x t.
Proof.
  unfold td_target, td_target_spec. destruct (doubleDQN s).
  - destruct (argmax _) as [a|] eqn:Ea; [|discriminate].
    destruct (_ !! a) as [q|] eqn:Eq; [|discriminate].
    intros [= <-]. exists a, q. split; [now apply argmax_spec | auto].
  - destruct (amax _) as [q|] eqn:Eq; [|discriminate].
    intros [= <-]. exists q. split; [now apply amax_spec | auto].
Qed.

Lemma for_each_lookup {A B} (f : A -> exn + B) l ys :
  for_each f l = inr ys ->
  length ys = length l /\
  forall i x, l !! i = Some x -> exists y, ys !! i = Some y /\ f x = inr y.
Proof.
  revert ys. induction l as [|x l IH]; intros ys; simpl.
  - intros [= <-]. split; [reflexivity|]. intros i x H. inversion H.
  - destruct (f x) as [e|y] eqn:Ef; [discriminate|].
    destruct (for_each f l) as [e|ys'] eqn:El; [discriminate|].
    intros [= <-]. destruct (IH ys' eq_refl) as [Hlen Hall].
    split; [simpl; now rewrite Hlen|].
    intros [|i] x' H; simpl in *.
    + inversion H; subst. eauto.
    + apply Hall, H.
Qed.

Lemma for_each_ext {A B} (f g : A -> exn + B) l :
  (forall x, f x = g x) -> for_each f l = for_each g l.
Proof.
  intros H. induction l as [|x l IH]; simpl; [reflexivity|].
  now rewrite H, IH.
Qed.

(** The attributes that the training step reads. *)
Definition learner (s : self) : bool * Q * weights * weights * buffer * Z :=
  (doubleDQN s, gamma s, model s, old_model s, memory s, batch_size s).

Lemma learn_window_keeps_learner round reward :
  preserves (keeps learner) (learn_window round reward).
Proof. frame. Qed.

Lemma learn_window_no_fit round reward :
  preserves (emits (fun ev => ~ is_fit ev)) (learn_window round reward).
Proof. quiet. Qed.

Lemma learn_schedule_no_fit round :
  preserves (emits (fun ev => ~ is_fit ev)) (learn_schedule round).
Proof. quiet. Qed.

(** The event is no call of [fit], or the call of the training step that
    starts on [s] with the random source [r]. *)
Definition fit_of (s : self) (r : rng) (ev : event) : Prop :=
  is_fit ev ->
  exists batch target tf,
    buffer_sample (memory s) (batch_size s) (6 # 10) r = inr batch /\
    for_each (td_target s) batch = inr target /\
    for_each (target_row s) (zip batch target) = inr tf /\
    ev = Fit (map s_prev batch) tf (map s_weight batch).

Lemma no_fit_fit_of s r ev : ~ is_fit ev -> fit_of s r ev.
Proof. intros H H'. now destruct H. Qed.

Lemma learn_train_fit r s : emits (fit_of s r) s (exec (learn_train r) s).
Proof.
  unfold learn_train, exec, bind, get, lift, try_except, modify, ret.
  destruct (buffer_sample _ _ _ _) as [e|batch] eqn:Eb; simpl; [reflexivity|].
  destruct (for_each (td_target s) batch) as [e|target] eqn:Et; simpl;
    [reflexivity|].
  assert (Hprint : forall e s', emits (fit_of s r) s' (emit (Print e) s')).
  { intros e s'. apply emit_emits, no_fit_fit_of. simpl. tauto. }
  destruct (for_each (target_row s) _) as [e|tf] eqn:Ef; simpl;
    [apply Hprint|].
  set (s1 := emit (Fit (map s_prev batch) tf (map s_weight batch)) s).
  assert (Hfit : emits (fit_of s r) s s1).
  { apply emit_emits. intros _. exists batch, target, tf. auto. }
  destruct (fit _ _ _ _) as [w' [e|loss]]; simpl.
  - etransitivity; [exact Hfit|].
    etransitivity; [|apply Hprint]. now apply silent_emits.
  - destruct (update_priorities _ _ _) as [e|m]; simpl.
    + etransitivity; [exact Hfit|].
      etransitivity; [|apply Hprint]. now apply silent_emits.
    + etransitivity; [exact Hfit|]. now apply silent_emits.
Qed.

Lemma td_target_learner s s' x :
  learner s' = learner s -> td_target s' x = td_target s x.
Proof.
  unfold learner, td_target. intros H. inversion H as [[Hd Hg Hm Ho Hb Hz]].
  now rewrite Hd, Hg, Hm, Ho.
Qed.

Lemma target_row_learner s s' xt :
  learner s' = learner s -> target_row s' xt = target_row s xt.
Proof.
  unfold learner, target_row. intros H. inversion H as [[Hd Hg Hm Ho Hb Hz]].
  now rewrite Hm.
Qed.

Lemma fit_of_learner s s' r ev :
  learner s' = learner s -> fit_of s' r ev -> fit_of s r ev.
Proof.
  intros Hl H Hev. destruct (H Hev) as (batch & target & tf & Hb & Ht & Hf & E).
  exists batch, target, tf.
  rewrite <- (for_each_ext _ _ _ (fun x => td_target_learner s s' x Hl)).
  rewrite <- (for_each_ext _ _ _ (fun x => target_row_learner s s' x Hl)).
  unfold learner in Hl. injection Hl as _ _ _ _ Hmem Hz.
  rewrite <- Hmem, <- Hz. auto.
Qed.

(** A call of [fit] that [learn] records is the one of its training step,
    on the object as [learn] found it. *)
Lemma learn_fit a s : emits (fit_of s (l_rng a)) s (exec (learn a) s).
Proof.
  unfold learn. rewrite exec_bind, learn_window_returns, exec_bind.
  set (s1 := exec (learn_window (l_round a) (l_reward a)) s).
  assert (H1 : emits (fit_of s (l_rng a)) s s1).
  { eapply emits_weaken; [apply no_fit_fit_of|]. apply learn_window_no_fit. }
  assert (Hl : learner s1 = learner s) by apply learn_window_keeps_learner.
  assert (H2 : emits (fit_of s (l_rng a)) s1 (exec (learn_train (l_rng a)) s1)).
  { eapply emits_weaken; [|apply learn_train_fit].
    intros ev. now apply fit_of_learner. }
  destruct (result (learn_train (l_rng a)) s1).
  - etransitivity; eassumption.
  - etransitivity; [exact H1|]. etransitivity; [exact H2|].
    eapply emits_weaken; [apply no_fit_fit_of|]. apply learn_schedule_no_fit.
Qed.

Lemma target_row_inv s x t row :
  target_row s (x, t) = inr row ->
  (s_action x < length (predict (model s) (s_prev x)))%nat /\
  row = <[s_action x := t]> (predict (model s) (s_prev x)).
Proof.
  unfold target_row, assign_target. simpl.
  destruct (decide _) as [Hlt|]; [|discriminate].
  intros [= <-]. auto.
Qed.

(** The rows of a recorded call of [fit], sample by sample. *)
Lemma fit_of_rows s r prev tf sw :
  fit_of s r (Fit prev tf sw) ->
  exists batch target,
    buffer_sample (memory s) (batch_size s) (6 # 10) r = inr batch /\
    for_each (td_target s) batch = inr target /\
    prev = map s_prev batch /\ sw = map s_weight batch /\
    length target = length batch /\ length tf = length batch /\
    forall i x, batch !! i = Some x ->
      exists t row,
        target !! i = Some t /\ tf !! i = Some row /\
        td_target s x = inr t /\ target_row s (x, t) = inr row.
Proof.
  intros H. destruct (H I) as (batch & target & tf' & Hb & Ht & Hf & E).
  inversion E; subst. exists batch, target.
  destruct (for_each_lookup _ _ _ Ht) as [Hlt Hat].
  destruct (for_each_lookup _ _ _ Hf) as [Hlf Haf].
  rewrite length_zip, Hlt, Nat.min_id in Hlf.
  repeat split; auto.
  intros i x Hx. destruct (Hat i x Hx) as (t & Hti & Htx).
  assert (Hz : zip batch target !! i = Some (x, t)).
  { apply lookup_zip_with_Some. exists x, t. auto. }
  destruct (Haf i _ Hz) as (row & Hri & Hrow).
  exists t, row. auto.
Qed.

(** C3. Whenever [learn] calls [fit], the target vector of each sample of
    the batch is the live network's prediction for the sample's
    [prev_state] with one entry overwritten, the one of the taken action,
    which holds the sample's TD target. With [doubleDQN] false, gamma 0.75,
    reward 1.0 and 2.0 the largest value of the target network at the next
    state, that entry is 2.5. *)
Theorem learn_target_vector (s : self) (a : learn_args) prev tf sw :
  Fit prev tf sw ∈ new_events s (exec (learn a) s) ->
  exists batch target,
    buffer_sample (memory s) (batch_size s) (6 # 10) (l_rng a) = inr batch /\
    for_each (td_target s) batch = inr target /\
    prev = map s_prev batch /\
    length tf = length batch /\
    forall i x, batch !! i = Some x ->
      exists t row,
        target !! i = Some t /\ tf !! i = Some row /\
        length row = length (predict (model s) (s_prev x)) /\
        row !! s_action x = Some t /\
        (forall j, j <> s_action x ->
           row !! j = predict (model s) (s_prev x) !! j) /\
        (doubleDQN s = false -> (gamma s == 3 # 4)%Q -> (s_reward x == 1)%Q ->
         forall q, is_max (predict (old_model s) (s_new x)) q -> (q == 2)%Q ->
         (t == 5 # 2)%Q).
Proof.
  intros H. apply (emits_new_events _ _ _ _ (learn_fit a s)) in H.
  destruct (fit_of_rows _ _ _ _ _ H)
    as (batch & target & Hb & Ht & Hp & Hw & Hlt & Hlf & Hrows).
  exists batch, target. repeat split; auto.
  intros i x Hx. destruct (Hrows i x Hx) as (t & row & Hti & Hri & Htx & Hrow).
  exists t, row. apply target_row_inv in Hrow as [Hlt' ->].
  repeat split; auto.
  - apply length_insert.
  - now apply list_lookup_insert_eq.
  - intros j Hj. apply list_lookup_insert_ne. auto.
  - intros Hd Hg Hr q [Hq Hmax] Hq2.
    unfold td_target in Htx. rewrite Hd in Htx.
    destruct (amax _) as [q'|] eqn:Eq; [|discriminate].
    injection Htx as <-. apply amax_spec in Eq as [Hq' Hmax'].
    assert (Hqq : (q' == q)%Q)
      by (apply Qle_antisym; [apply Hmax, Hq' | apply Hmax', Hq]).
    rewrite Hr, Hg, Hqq, Hq2. reflexivity.
Qed.

(** ** The logging window *)

Lemma learn_window_unfold round reward s :
  exec (learn_window round reward) s =
  if round mod 100 =? 0 then
    if round >? game_duration s - score_scope s then
      set_r_sum 0
        (emit (Log (RewardsScore (r_sum s) (epsilon s) (buffer_len (memory s)))
                 (Some VALUE)) s)
    else if num_of_samples s =? 0 then
      emit (Log (ExceptionText ZeroDivisionError) (Some EXCEPTION))
        (emit (Log SomethingWentWrong (Some EXCEPTION)) s)
    else
      set_r_sum 0
        (emit (Log (RewardsLoss (r_sum s) (epsilon s) (buffer_len (memory s))
                      (sum_of_loss s / inject_Z (num_of_samples s)))
                 (Some VALUE))
           (set_sum_of_loss 0 (set_num_of_samples 0 s)))
  else set_r_sum (r_sum s + reward) s.
Proof.
  unfold exec, learn_window, try_except, log, py_truediv, bind, get, modify,
    ret, raise.
  destruct (round mod 100 =? 0); [|reflexivity].
  destruct (round >? game_duration s - score_scope s); [reflexivity|].
  destruct (num_of_samples s =? 0); reflexivity.
Qed.

Lemma learn_train_keeps_r_sum r : preserves (keeps r_sum) (learn_train r).
Proof. frame. Qed.

Lemma learn_schedule_keeps_r_sum round :
  preserves (keeps r_sum) (learn_schedule round).
Proof. frame. Qed.

(** Only lines 97-112 of [learn] assign the reward sum. *)
Lemma learn_r_sum a s :
  r_sum (exec (learn a) s) =
  r_sum (exec (learn_window (l_round a) (l_reward a)) s).
Proof.
  unfold learn. rewrite exec_bind, learn_window_returns, exec_bind.
  destruct (result _ _).
  - apply (learn_train_keeps_r_sum _ _).
  - rewrite (learn_schedule_keeps_r_sum _ _).
    apply (learn_train_keeps_r_sum _ _).
Qed.


(** ** More of learn: what escapes, and what a training step changes *)

(** The training step in one piece: what lines 114-134 return and leave
    behind, case by case. *)
Lemma learn_train_unfold r s :
  learn_train r s =
  match buffer_sample (memory s) (batch_size s) (6 # 10) r with
  | inl e => (s, inl e)
  | inr batch =>
      match for_each (td_target s) batch with
      | inl e => (s, inl e)
      | inr target =>
          match for_each (target_row s) (zip batch target) with
          | inl e => (emit (Print e) s, inr tt)
          | inr tf =>
              let hist :=
                fit (model s) (map s_prev batch) tf (map s_weight batch) in
              let s1 :=
                set_model hist.1
                  (emit (Fit (map s_prev batch) tf (map s_weight batch)) s) in
              match hist.2 with
              | inl e => (emit (Print e) s1, inr tt)
              | inr loss =>
                  let s2 :=
                    set_num_of_samples (num_of_samples s + 1)
                      (set_sum_of_loss (sum_of_loss s + loss)%Q s1) in
                  match
                    update_priorities (memory s) (map s_idx batch)
                      (map (fun x => x + (1 # 1000000))%Q
                         (zip_with abs_diff_sum tf
                            (map (predict hist.1) (map s_prev batch))))
                  with
                  | inl e => (emit (Print e) s2, inr tt)
                  | inr m => (set_memory m s2, inr tt)
                  end
              end
          end
      end
  end.
Proof.
  unfold learn_train, bind, get, lift, try_except, modify, ret.
  destruct (buffer_sample _ _ _ _) as [e|batch]; simpl; [reflexivity|].
  destruct (for_each (td_target s) batch) as [e|target]; simpl; [reflexivity|].
  destruct (for_each (target_row s) _) as [e|tf]; simpl; [reflexivity|].
  destruct (fit _ _ _ _) as [w' [e|loss]]; simpl; [reflexivity|].
  destruct (update_priorities _ _ _) as [e|m]; reflexivity.
Qed.

(** The batch and the TD targets of a call of [learn], if the replay
    buffer and the networks yield them. *)
Definition learn_targets (s : self) (r : rng) : exn + list sample * list Q :=
  match buffer_sample (memory s) (batch_size s) (6 # 10) r with
  | inl e => inl e
  | inr batch =>
      match for_each (td_target s) batch with
      | inl e => inl e
      | inr target => inr (batch, target)
      end
  end.

Lemma learn_targets_learner s s' r :
  learner s' = learner s -> learn_targets s' r = learn_targets s r.
Proof.
  intros Hl. unfold learn_targets.
  assert (Ht : forall batch,
    for_each (td_target s') batch = for_each (td_target s) batch).
  { intros batch. apply for_each_ext. intros x. now apply td_target_learner. }
  unfold learner in Hl. injection Hl as _ _ _ _ Hm Hb. rewrite Hm, Hb.
  destruct (buffer_sample _ _ _ _) as [e|batch]; [reflexivity|].
  now rewrite Ht.
Qed.

Lemma learn_train_result r s :
  result (learn_train r) s =
  match learn_targets s r with
  | inl e => inl e
  | inr _ => inr tt
  end.
Proof.
  unfold result, learn_targets. rewrite learn_train_unfold.
  destruct (buffer_sample _ _ _ _) as [e|batch]; [reflexivity|].
  destruct (for_each (td_target s) batch) as [e|target]; [reflexivity|].
  destruct (for_each (target_row s) _) as [e|tf]; [reflexivity|].
  cbv zeta. destruct (fit _ _ _ _) as [w' [e|loss]]; simpl; [reflexivity|].
  destruct (update_priorities _ _ _) as [e|m]; reflexivity.
Qed.

Lemma learn_result_targets a s :
  result (learn a) s =
  match learn_targets s (l_rng a) with
  | inl e => inl e
  | inr _ =>
      if save_model_round s =? 0 then inl ZeroDivisionError else inr tt
  end.
Proof.
  unfold result at 1. rewrite learn_unfold, learn_train_result.
  rewrite (learn_targets_learner s _ _
             (learn_window_keeps_learner (l_round a) (l_reward a) s)).
  destruct (learn_targets s (l_rng a)) as [e|bt]; [reflexivity|].
  rewrite learn_schedule_unfold.
  destruct (settings_decay _ _ (before_schedule_settings a s))
    as (_ & _ & _ & _ & Hr).
  rewrite Hr. destruct (save_model_round s =? 0); reflexivity.
Qed.

(** A call of [learn] raises in three cases only: the replay buffer's
    [sample] raises, a TD target cannot be computed (a network values no
    action, or the two networks value different numbers of actions), or
    [save_model_round] is 0 (line 136 divides by it). What goes wrong
    inside the two [try] blocks never leaves [learn]: the division of line
    103, the assignment of line 124, [fit], [update_priorities]. *)
Theorem learn_result (s : self) (a : learn_args) :
  result (learn a) s =
  match learn_targets s (l_rng a) with
  | inl e => inl e
  | inr _ =>
      if save_model_round s =? 0 then inl ZeroDivisionError else inr tt
  end.
Proof. apply learn_result_targets. Qed.

(** The call of [fit] of a training step, if the step comes to one: the
    weights it leaves in the live network, and the loss or what it
    raised. *)
Definition fit_call (s : self) (r : rng) : option (weights * (exn + Q)) :=
  match learn_targets s r with
  | inl _ => None
  | inr (batch, target) =>
      match for_each (target_row s) (zip batch target) with
      | inl _ => None
      | inr tf => Some (fit (model s) (map s_prev batch) tf (map s_weight batch))
      end
  end.

Lemma fit_call_learner s s' r :
  learner s' = learner s -> fit_call s' r = fit_call s r.
Proof.
  intros Hl. unfold fit_call. rewrite (learn_targets_learner s s' r Hl).
  destruct (learn_targets s r) as [e|[batch target]]; [reflexivity|].
  rewrite (for_each_ext (target_row s') (target_row s))
    by (intros xt; now apply target_row_learner).
  unfold learner in Hl. injection Hl as _ _ Hm _ _ _. now rewrite Hm.
Qed.

(** The attributes that only the training step assigns. *)
Definition trained (s : self) : weights * Z * Q :=
  (model s, num_of_samples s, sum_of_loss s).

Lemma learn_schedule_keeps_trained round :
  preserves (keeps trained) (learn_schedule round).
Proof. frame. Qed.

Lemma learn_trained a s : trained (exec (learn a) s) = trained (before_schedule a s).
Proof.
  unfold exec at 1. rewrite learn_unfold.
  destruct (result _ _); [reflexivity|].
  apply (learn_schedule_keeps_trained _ _).
Qed.

Lemma learn_train_trained r s :
  trained (exec (learn_train r) s) =
  match fit_call s r with
  | Some (w, inr loss) => (w, num_of_samples s + 1, (sum_of_loss s + loss)%Q)
  | Some (w, inl _) => (w, num_of_samples s, sum_of_loss s)
  | None => trained s
  end.
Proof.
  unfold exec, fit_call, learn_targets. rewrite learn_train_unfold.
  destruct (buffer_sample _ _ _ _) as [e|batch]; [reflexivity|].
  destruct (for_each (td_target s) batch) as [e|target]; [reflexivity|].
  destruct (for_each (target_row s) _) as [e|tf]; [reflexivity|].
  cbv zeta. destruct (fit _ _ _ _) as [w' [e|loss]]; simpl; [reflexivity|].
  destruct (update_priorities _ _ _) as [e|m]; reflexivity.
Qed.

Lemma learn_trained_fit_call a s :
  trained (exec (learn a) s) =
  match fit_call s (l_rng a) with
  | Some (w, inr loss) =>
      (w, num_of_samples (exec (learn_window (l_round a) (l_reward a)) s) + 1,
       (sum_of_loss (exec (learn_window (l_round a) (l_reward a)) s) + loss)%Q)
  | Some (w, inl _) =>
      (w, num_of_samples (exec (learn_window (l_round a) (l_reward a)) s),
       sum_of_loss (exec (learn_window (l_round a) (l_reward a)) s))
  | None =>
      (model s, num_of_samples (exec (learn_window (l_round a) (l_reward a)) s),
       sum_of_loss (exec (learn_window (l_round a) (l_reward a)) s))
  end.
Proof.
  set (s1 := exec (learn_window (l_round a) (l_reward a)) s).
  rewrite learn_trained. unfold before_schedule. fold s1.
  rewrite learn_train_trained.
  assert (Hl : learner s1 = learner s) by apply learn_window_keeps_learner.
  rewrite (fit_call_learner s s1 _ Hl).
  destruct (fit_call s (l_rng a)) as [[w [e|loss]]|]; try reflexivity.
  unfold trained. unfold learner in Hl. injection Hl as _ _ Hm _ _ _.
  now rewrite Hm.
Qed.

(** What a call of [learn] does to the live network and to the loss
    statistics: nothing unless it comes to call [fit]; [fit]'s weights are
    the live network's from then on, even if [fit] raises; the sample
    count goes up by one and the loss sum by the loss exactly when [fit]
    returns a loss. The statistics count from where lines 97-112 of the
    same call left them. *)
Theorem learn_trains (s : self) (a : learn_args) :
  let s1 := exec (learn_window (l_round a) (l_reward a)) s in
  trained (exec (learn a) s) =
  match fit_call s (l_rng a) with
  | Some (w, inr loss) => (w, num_of_samples s1 + 1, (sum_of_loss s1 + loss)%Q)
  | Some (w, inl _) => (w, num_of_samples s1, sum_of_loss s1)
  | None => (model s, num_of_samples s1, sum_of_loss s1)
  end.
Proof. intros s1. apply learn_trained_fit_call. Qed.

Lemma for_each_fails {A B} (f : A -> exn + B) l i x e :
  l !! i = Some x -> f x = inl e -> exists e', for_each f l = inl e'.
Proof.
  revert i. induction l as [|y l IH]; intros i Hi Hf; [inversion Hi|].
  simpl. destruct i as [|i]; simpl in Hi.
  - inversion Hi; subst. rewrite Hf. eauto.
  - destruct (f y); [eauto|].
    destruct (IH i Hi Hf) as [e' ->]. eauto.
Qed.

Lemma for_each_error {A B} (f : A -> exn + B) l e :
  for_each f l = inl e -> exists x, x ∈ l /\ f x = inl e.
Proof.
  induction l as [|y l IH]; simpl; [discriminate|].
  destruct (f y) as [e'|b] eqn:Ef.
  - intros [= <-]. exists y. split; [left | exact Ef].
  - destruct (for_each f l) as [e'|bs]; [|discriminate].
    intros [= <-]. destruct (IH eq_refl) as (x & Hx & Hfx).
    exists x. split; [now right | exact Hfx].
Qed.

Lemma learn_schedule_keeps_out round : preserves (keeps out) (learn_schedule round).
Proof. frame. Qed.

Lemma learn_train_no_row r s batch target e :
  learn_targets s r = inr (batch, target) ->
  for_each (target_row s) (zip batch target) = inl e ->
  learn_train r s = (emit (Print e) s, inr tt).
Proof.
  intros Ht Hrow. rewrite learn_train_unfold. unfold learn_targets in Ht.
  destruct (buffer_sample _ _ _ _) as [e'|batch']; [discriminate|].
  destruct (for_each (td_target s) batch') as [e'|target']; [discriminate|].
  injection Ht as -> ->.
  match goal with
  | |- context [for_each (target_row s) ?z] =>
      replace (for_each (target_row s) z) with (@inl exn (list (list Q)) e)
        by (symmetry; exact Hrow)
  end.
  reflexivity.
Qed.

(** A sampled action index that is out of range for the live network's
    prediction stops the training step before [fit]: line 124 raises
    IndexError inside the [try], the exception is printed, and the call
    of [learn] records nothing else after the window's log lines; the
    live network and the loss statistics are not touched. *)
Theorem learn_index_error (s : self) (a : learn_args) batch target i x :
  learn_targets s (l_rng a) = inr (batch, target) ->
  batch !! i = Some x ->
  (length (predict (model s) (s_prev x)) <= s_action x)%nat ->
  let s1 := exec (learn_window (l_round a) (l_reward a)) s in
  out (exec (learn a) s) = out s1 ++ [Print IndexError] /\
  trained (exec (learn a) s) = (model s, num_of_samples s1, sum_of_loss s1).
Proof.
  intros Ht Hx Hlen s1.
  assert (Hl : learner s1 = learner s) by apply learn_window_keeps_learner.
  assert (Hrow : for_each (target_row s) (zip batch target) = inl IndexError).
  { unfold learn_targets in Ht.
    destruct (buffer_sample _ _ _ _) as [e|batch']; [discriminate|].
    destruct (for_each (td_target s) batch') as [e|target'] eqn:Etg;
      [discriminate|].
    injection Ht as -> ->.
    destruct (for_each_lookup _ _ _ Etg) as [_ Hall].
    destruct (Hall i x Hx) as (t & Hti & _).
    assert (Hz : zip batch target !! i = Some (x, t))
      by (apply lookup_zip_with_Some; exists x, t; auto).
    assert (Hf : target_row s (x, t) = inl IndexError).
    { unfold target_row, assign_target. simpl.
      destruct (decide _); [lia | reflexivity]. }
    destruct (for_each_fails _ _ _ _ _ Hz Hf) as [e' He'].
    rewrite He'. f_equal.
    destruct (for_each_error _ _ _ He') as ([x' t'] & _ & Hx').
    unfold target_row, assign_target in Hx'. simpl in Hx'.
    destruct (decide _); [discriminate | congruence]. }
  split.
  - unfold exec at 1. rewrite learn_unfold.
    assert (Hb : out (before_schedule a s) = out s1 ++ [Print IndexError]).
    { unfold before_schedule. fold s1. unfold exec at 1.
      rewrite (learn_train_no_row _ s1 batch target IndexError);
        [reflexivity | now rewrite (learn_targets_learner s s1 _ Hl) |].
      rewrite (for_each_ext (target_row s1) (target_row s));
        [exact Hrow | intros xt; now apply target_row_learner]. }
    destruct (result _ _); simpl; [exact Hb|].
    rewrite <- Hb. apply (learn_schedule_keeps_out _ _).
  - rewrite learn_trained_fit_call. fold s1.
    unfold fit_call. rewrite Ht, Hrow. reflexivity.
Qed.

(** ** The loss statistics *)

(** The sample count is not negative, and while it is 0 the loss sum is
    the 0 that was assigned to it. *)
Definition counted (s : self) : Prop :=
  0 <= num_of_samples s /\ (num_of_samples s = 0 -> sum_of_loss s = 0%Q).

Lemma learn_window_counted round reward s :
  counted s -> counted (exec (learn_window round reward) s).
Proof.
  intros H. rewrite learn_window_unfold.
  destruct (round mod 100 =? 0); [|exact H].
  destruct (round >? _); [exact H|].
  destruct (num_of_samples s =? 0); [exact H|].
  split; simpl; [lia | reflexivity].
Qed.

Lemma learn_counted a s : counted s -> counted (exec (learn a) s).
Proof.
  intros H.
  apply (learn_window_counted (l_round a) (l_reward a)) in H.
  destruct H as [Hn Hz].
  pose proof (learn_trained_fit_call a s) as Ht.
  unfold counted. unfold trained in Ht.
  destruct (fit_call s (l_rng a)) as [[w [e|loss]]|];
    injection Ht as _ -> ->; split; auto; lia.
Qed.

Lemma act_keeps_statistics a :
  preserves (keeps (fun s => (r_sum s, num_of_samples s, sum_of_loss s))) (act a).
Proof. frame. Qed.

Lemma step_counted s c : counted s -> counted (step s c).
Proof.
  destruct c as [a|a]; simpl; [|apply learn_counted].
  pose proof (act_keeps_statistics a s) as H. unfold keeps in H.
  injection H as _ Hn Hl. unfold counted. now rewrite Hn, Hl.
Qed.

(** From [init_run] on, whatever calls of [act] and [learn] follow, the
    sample count is never negative, and whenever it is 0 the loss sum is
    the integer 0 assigned by [init_run] or by line 104: the average of
    line 103 is a division by a positive count or of 0 by 0. *)
Theorem statistics_counted (s : self) (cs : list call) :
  let s' := run (exec init_run s) cs in
  0 <= num_of_samples s' /\ (num_of_samples s' = 0 -> sum_of_loss s' = 0%Q).
Proof.
  intros s'. subst s'.
  assert (H : counted (exec init_run s)) by (split; simpl; [lia | reflexivity]).
  revert H. generalize (exec init_run s). clear s.
  induction cs as [|c cs IH]; intros s H; simpl; [exact H|].
  apply IH, step_counted, H.
Qed.

(** ** More of act: what it remembers and what it returns *)

(** [ACTIONS.index(x)] is the first position that holds [x], and there is
    none exactly when [x] is not in [ACTIONS]. *)
Lemma index_Some l x i :
  index l x = Some i ->
  l !! i = Some x /\ forall j, (j < i)%nat -> l !! j <> Some x.
Proof.
  revert i. induction l as [|y l IH]; intros i; simpl; [discriminate|].
  destruct (decide (y = x)) as [->|Hne].
  - intros [= <-]. split; [reflexivity | intros j Hj; lia].
  - destruct (index l x) as [k|]; simpl; [|discriminate].
    intros [= <-]. destruct (IH k eq_refl) as [Hk Hfirst].
    split; [exact Hk|]. intros [|j] Hj; simpl.
    + congruence.
    + apply Hfirst. lia.
Qed.

Lemma index_None l x : index l x = None <-> x ∉ l.
Proof.
  induction l as [|y l IH]; simpl.
  - split; [intros _ H; inversion H | reflexivity].
  - destruct (decide (y = x)) as [->|Hne].
    + split; [discriminate | intros H; destruct H; left].
    + destruct (index l x) as [k|]; simpl.
      * split; [discriminate|]. intros H. exfalso.
        assert (Hin : x ∈ l).
        { destruct (decide (x ∈ l)) as [Hin|Hnin]; [exact Hin|].
          apply IH in Hnin. discriminate. }
        apply H. now right.
      * split; [|reflexivity]. intros _ H.
        apply elem_of_cons in H as [->|H]; [congruence|].
        now apply IH in H.
Qed.

Lemma act_money_time_keeps_memory round :
  preserves (keeps memory) (act_money_time round).
Proof. frame. Qed.

Lemma act_choose_keeps_memory a r : preserves (keeps memory) (act_choose a r).
Proof. frame. Qed.

Lemma act_remember_returns a r s :
  result (act_remember a r) s =
  match a_prev_state a with
  | None => inr tt
  | Some _ =>
      match a_prev_action a ≫= index ACTIONS with
      | None => inl ValueError
      | Some _ => inr tt
      end
  end.
Proof.
  unfold result, act_remember, bind, get, modify, orelse, ret, raise.
  destruct (a_prev_state a); [|reflexivity].
  destruct (a_prev_action a ≫= index ACTIONS); reflexivity.
Qed.

Lemma act_memory a s :
  memory (exec (act a) s) =
  match a_prev_state a with
  | None => memory s
  | Some p =>
      match a_prev_action a ≫= index ACTIONS with
      | None => memory s
      | Some i =>
          buffer_add (memory s) (get_state_repr p) i (a_reward a)
            (get_state_repr (a_new_state a)) 0
      end
  end.
Proof.
  unfold act. rewrite exec_bind, act_money_time_returns, exec_bind.
  set (r := get_state_repr (a_new_state a)).
  set (s1 := exec (act_money_time (a_round a)) s).
  assert (H1 : memory s1 = memory s) by apply act_money_time_keeps_memory.
  assert (H2 : memory (exec (act_remember a r) s1) =
               match a_prev_state a with
               | None => memory s
               | Some p =>
                   match a_prev_action a ≫= index ACTIONS with
                   | None => memory s
                   | Some i =>
                       buffer_add (memory s) (get_state_repr p) i (a_reward a)
                         r 0
                   end
               end).
  { unfold exec, act_remember, bind, get, modify, orelse, ret, raise.
    destruct (a_prev_state a); [|exact H1].
    destruct (a_prev_action a ≫= index ACTIONS); simpl; [|exact H1].
    now rewrite H1. }
  destruct (result (act_remember a r) s1); [exact H2|].
  rewrite (act_choose_keeps_memory _ _ _). exact H2.
Qed.

Lemma act_result a s :
  result (act a) s =
  match result (act_remember a (get_state_repr (a_new_state a)))
          (exec (act_money_time (a_round a)) s) with
  | inl e => inl e
  | inr _ =>
      result (act_choose a (get_state_repr (a_new_state a)))
        (exec (act_remember a (get_state_repr (a_new_state a)))
           (exec (act_money_time (a_round a)) s))
  end.
Proof.
  unfold act. rewrite result_bind, act_money_time_returns, result_bind.
  reflexivity.
Qed.

(** What a call of [act] puts into the replay buffer. With no previous
    state it adds nothing. With a previous state and a previous action of
    [ACTIONS] it adds one transition: the two encoded states, the reward,
    the terminal flag 0, and the first position of the action in
    [ACTIONS], which looks the action up again. With a previous state and
    a previous action that is not in [ACTIONS] (or is None) it adds
    nothing and raises ValueError. *)
Theorem act_remembers (s : self) (a : act_args) :
  (a_prev_state a = None -> memory (exec (act a) s) = memory s) /\
  (forall p x, a_prev_state a = Some p -> a_prev_action a = Some x ->
     x ∈ ACTIONS ->
     exists i,
       ACTIONS !! i = Some x /\
       (forall j, (j < i)%nat -> ACTIONS !! j <> Some x) /\
       memory (exec (act a) s) =
       buffer_add (memory s) (get_state_repr p) i (a_reward a)
         (get_state_repr (a_new_state a)) 0) /\
  (forall p, a_prev_state a = Some p ->
     (forall x, a_prev_action a = Some x -> x ∉ ACTIONS) ->
     memory (exec (act a) s) = memory s /\ result (act a) s = inl ValueError).
Proof.
  split; [|split].
  - intros Hp. rewrite act_memory, Hp. reflexivity.
  - intros p x Hp Hx Hin. rewrite act_memory, Hp, Hx. simpl.
    destruct (index ACTIONS x) as [i|] eqn:Ei.
    + destruct (index_Some _ _ _ Ei) as [Hi Hfirst]. exists i. auto.
    + apply index_None in Ei. contradiction.
  - intros p Hp Hx.
    assert (Hn : a_prev_action a ≫= index ACTIONS = None).
    { destruct (a_prev_action a) as [x|]; simpl; [|reflexivity].
      apply index_None. now apply Hx. }
    split.
    + rewrite act_memory, Hp, Hn. reflexivity.
    + rewrite act_result, act_remember_returns, Hp, Hn. reflexivity.
Qed.

Lemma random_choice_member pick s x :
  result (random_choice pick) s = inr x -> x ∈ ACTIONS.
Proof.
  unfold result, random_choice, orelse, ret, raise.
  destruct (ACTIONS !! _) as [y|] eqn:E; simpl; [|discriminate].
  intros [= <-]. apply list_elem_of_lookup. eauto.
Qed.

Lemma greedy_member w r x : greedy w r = inr x -> x ∈ ACTIONS.
Proof.
  unfold greedy. destruct (argmax _) as [i|]; [|discriminate].
  destruct (ACTIONS !! i) as [y|] eqn:E; [|discriminate].
  intros [= <-]. apply list_elem_of_lookup. eauto.
Qed.

Lemma act_choose_member a r s x :
  result (act_choose a r) s = inr x -> x ∈ ACTIONS.
Proof.
  unfold act_choose, softmax_choice.
  rewrite result_bind. unfold result at 1. unfold get. simpl.
  destruct (use_softmax_sampling s).
  - rewrite result_bind. unfold result at 1. unfold modify. simpl.
    destruct (Qeq_bool _ _); [discriminate|].
    destruct (decide _); [apply random_choice_member | discriminate].
  - destruct (Qlt_bool _ _); [apply random_choice_member|].
    unfold result, lift. simpl. apply greedy_member.
Qed.

Lemma act_member a s x : result (act a) s = inr x -> x ∈ ACTIONS.
Proof.
  rewrite act_result. destruct (result (act_remember _ _) _); [discriminate|].
  apply act_choose_member.
Qed.

(** Whatever [act] returns is a member of [ACTIONS], on each of its three
    branches (softmax sampling, random exploration, greedy). *)
Theorem act_returns_action (s : self) (a : act_args) x :
  result (act a) s = inr x -> x ∈ ACTIONS.
Proof. apply act_member. Qed.

Lemma random_choice_returns pick s :
  ACTIONS <> [] -> exists x, result (random_choice pick) s = inr x.
Proof.
  intros Hne. unfold result, random_choice, orelse, ret, raise.
  assert (Hlt : (pick mod length ACTIONS < length ACTIONS)%nat).
  { apply Nat.mod_upper_bound. destruct ACTIONS; [congruence | simpl; lia]. }
  apply lookup_lt_is_Some_2 in Hlt as [x Hx]. rewrite Hx. eauto.
Qed.

Lemma argmax_lt row i : argmax row = Some i -> (i < length row)%nat.
Proof.
  intros H. apply argmax_spec in H as (q & Hq & _).
  now apply lookup_lt_Some in Hq.
Qed.

Lemma greedy_returns w r :
  ACTIONS <> [] -> length (predict w r) = length ACTIONS ->
  exists x, greedy w r = inr x.
Proof.
  intros Hne Hlen. unfold greedy.
  destruct (argmax (predict w r)) as [i|] eqn:Ei.
  - apply argmax_lt in Ei. rewrite Hlen in Ei.
    apply lookup_lt_is_Some_2 in Ei as [x Hx]. rewrite Hx. eauto.
  - destruct (predict w r); [|discriminate].
    destruct ACTIONS; [congruence | discriminate].
Qed.

Lemma act_choose_returns a r s :
  use_softmax_sampling s = false ->
  ACTIONS <> [] ->
  (forall w r', length (predict w r') = length ACTIONS) ->
  exists x, result (act_choose a r) s = inr x.
Proof.
  intros Hu Hne Hlen. unfold act_choose.
  rewrite result_bind. unfold result at 1. unfold get. simpl.
  rewrite Hu.
  destruct (Qlt_bool _ _); [now apply random_choice_returns|].
  unfold result, lift. simpl. now apply greedy_returns.
Qed.

(** With the softmax mode off (as it is from the first call of [act] in
    the final scoring window on), in a world where [ACTIONS] is not empty
    and the network values as many actions as [ACTIONS] has, a call of
    [act] returns an action of [ACTIONS] whenever its previous action, if
    it has a previous state, is in [ACTIONS]: neither the random
    exploration of line 158 nor the greedy branch (its argmax is a
    position of [ACTIONS]) raises. *)
Theorem act_returns (s : self) (a : act_args) :
  use_softmax_sampling s = false ->
  ACTIONS <> [] ->
  (forall w r, length (predict w r) = length ACTIONS) ->
  (a_prev_state a = None \/
   exists x, a_prev_action a = Some x /\ x ∈ ACTIONS) ->
  exists x, result (act a) s = inr x /\ x ∈ ACTIONS.
Proof.
  intros Hu Hne Hlen Hprev.
  assert (Hx : exists x, result (act a) s = inr x).
  { rewrite act_result, act_remember_returns.
    assert (Hrem : match a_prev_state a with
                   | Some _ =>
                       match a_prev_action a ≫= index ACTIONS with
                       | Some _ => inr ()
                       | None => inl ValueError
                       end
                   | None => inr ()
                   end = (inr () : exn + unit)).
    { destruct Hprev as [->|(x & -> & Hin)]; [reflexivity|].
      destruct (a_prev_state a); [|reflexivity]. simpl.
      destruct (index ACTIONS x) eqn:Ei; [reflexivity|].
      apply index_None in Ei. contradiction. }
    rewrite Hrem. apply act_choose_returns; [|exact Hne|exact Hlen].
    pose proof (act_remember_keeps a (get_state_repr (a_new_state a))
                  (exec (act_money_time (a_round a)) s)) as Hk.
    unfold keeps in Hk. injection Hk as _ Hk _. rewrite Hk.
    rewrite act_money_time_unfold.
    destruct (_ >? _); simpl; [reflexivity | exact Hu]. }
  destruct Hx as [x Hx]. exists x. split; [exact Hx|].
  now apply (act_member a s).
Qed.

(** ** What the calls never touch *)

(** No call of [act] or [learn] assigns a hyperparameter: the game's
    length and scoring window, gamma, the decay factor and floor of
    epsilon, the batch size, the double-DQN switch and the synchronisation
    period are in every state of a run what they were at its start. *)
Theorem hyperparameters_fixed (s : self) (cs : list call) :
  settings (run s cs) = settings s.
Proof. apply run_settings. Qed.

(** [act] does not train and [learn] does not switch modes: a call of
    [act], whether it returns or raises, leaves both networks' weights,
    the reward sum and the loss statistics as they were; a call of
    [learn] leaves [use_softmax_sampling] as it was. *)
Theorem act_and_learn_apart (s : self) (c : call) :
  match c with
  | Act a =>
      model (step s c) = model s /\ old_model (step s c) = old_model s /\
      r_sum (step s c) = r_sum s /\
      num_of_samples (step s c) = num_of_samples s /\
      sum_of_loss (step s c) = sum_of_loss s
  | Learn a => use_softmax_sampling (step s c) = use_softmax_sampling s
  end.
Proof.
  destruct c as [a|a]; simpl.
  - pose proof (act_keeps_weights a s) as Hw.
    pose proof (act_keeps_statistics a s) as Hs.
    unfold keeps in *. injection Hw as Hm Ho. injection Hs as Hr Hn Hl.
    auto.
  - apply (learn_keeps_use_softmax_sampling a s).
Qed.

(** The softmax mode is on after a run exactly if it was on before and
    [act] was not called in the final scoring window: only line 144
    assigns [use_softmax_sampling], and it assigns False. *)
Theorem softmax_mode_after_run (s : self) (cs : list call) :
  use_softmax_sampling (run s cs) =
  use_softmax_sampling s && negb (existsb (money_time s) cs).
Proof.
  revert s. induction cs as [|c cs IH]; intros s; simpl.
  - now rewrite andb_true_r.
  - rewrite IH.
    rewrite (existsb_pointwise (money_time (step s c)) (money_time s))
      by (intros c'; apply money_time_settings, step_settings).
    destruct c as [a|a]; simpl.
    + rewrite act_use_softmax_sampling.
      destruct (_ >? _); simpl; [now rewrite andb_false_r | reflexivity].
    + now rewrite (learn_keeps_use_softmax_sampling a s).
Qed.

(** ** The reward window *)

(** The rewards of the calls of [learn] of a run, added up. *)
Fixpoint reward_total (cs : list call) : Q :=
  match cs with
  | [] => 0
  | Act _ :: cs' => reward_total cs'
  | Learn a :: cs' => l_reward a + reward_total cs'
  end.

(** The call is a [learn] in a round that is a multiple of 100. *)
Definition window_boundary (c : call) : bool :=
  match c with
  | Act _ => false
  | Learn a => l_round a mod 100 =? 0
  end.

Lemma step_r_sum s c :
  r_sum (step s c) =
  match c with
  | Act _ => r_sum s
  | Learn a =>
      if l_round a mod 100 =? 0 then
        if l_round a >? game_duration s - score_scope s then 0%Q
        else if num_of_samples s =? 0 then r_sum s else 0%Q
      else (r_sum s + l_reward a)%Q
  end.
Proof.
  destruct c as [a|a]; simpl.
  - pose proof (act_keeps_statistics a s) as H. unfold keeps in H.
    now injection H as Hr _ _.
  - rewrite learn_r_sum, learn_window_unfold.
    destruct (l_round a mod 100 =? 0); [|reflexivity].
    destruct (_ >? _); [reflexivity|].
    destruct (num_of_samples s =? 0); reflexivity.
Qed.

(** The reward sum collects the rewards that [learn] is called with
    between two rounds that are multiples of 100, and nothing else: over
    a run without such a round it grows by the total of [learn]'s rewards
    ([act]'s reward argument is not counted). The reward of a call in a
    round that is a multiple of 100 is never counted: after that call the
    sum is 0, or what it was if the window code raised. *)
Theorem reward_window (s : self) (cs : list call) (a : learn_args) :
  (existsb window_boundary cs = false ->
   (r_sum (run s cs) == r_sum s + reward_total cs)%Q) /\
  (l_round a mod 100 = 0 ->
   r_sum (exec (learn a) s) = 0%Q \/ r_sum (exec (learn a) s) = r_sum s).
Proof.
  split.
  - revert s. induction cs as [|c cs IH]; intros s; simpl.
    + intros _. ring.
    + intros H. apply orb_false_iff in H as [Hc Hcs].
      rewrite (IH _ Hcs), step_r_sum.
      destruct c as [a'|a']; simpl in *; [reflexivity|].
      rewrite Hc. ring.
  - intros Hr. change (exec (learn a) s) with (step s (Learn a)).
    rewrite step_r_sum. apply Z.eqb_eq in Hr. rewrite Hr.
    clear Hr. destruct (_ >? _); [auto|].
    destruct (num_of_samples s =? 0); auto.
Qed.

(** ** The greedy action and the two target rules *)

Lemma argmax_from_first (full : list Q) row : forall i m k,
  full !! i = Some m ->
  (forall j y, (j < i)%nat -> full !! j = Some y -> (y < m)%Q) ->
  (forall j y, (i <= j < k)%nat -> full !! j = Some y -> (y <= m)%Q) ->
  drop k full = row ->
  exists q,
    full !! argmax_from i m k row = Some q /\
    (forall j y, (j < argmax_from i m k row)%nat -> full !! j = Some y ->
       (y < q)%Q) /\
    (forall y, y ∈ full -> (y <= q)%Q).
Proof.
  induction row as [|x row IH]; intros i m k Hi Hlt Hle Hdrop; simpl.
  - exists m. split; [exact Hi|]. split; [exact Hlt|].
    intros y Hy. apply list_elem_of_lookup in Hy as [j Hj].
    assert (Hjk : (j < k)%nat).
    { apply lookup_lt_Some in Hj.
      apply (f_equal length) in Hdrop. rewrite length_drop in Hdrop.
      simpl in Hdrop. lia. }
    destruct (decide (j < i)%nat) as [Hji|Hji].
    + apply Qlt_le_weak. now apply (Hlt j).
    + apply (Hle j); [lia | exact Hj].
  - assert (Hk : full !! k = Some x).
    { rewrite <- (Nat.add_0_r k), <- lookup_drop, Hdrop. reflexivity. }
    assert (Hrest : drop (S k) full = row).
    { rewrite (drop_S _ _ _ Hk) in Hdrop. now inversion Hdrop. }
    assert (Hik : (i < k)%nat \/ (k <= i)%nat) by lia.
    destruct (Qlt_bool m x) eqn:E.
    + apply Qlt_bool_iff in E. apply IH; [exact Hk| | |exact Hrest].
      * intros j y Hj Hy. destruct (decide (j < i)%nat) as [Hji|Hji].
        -- eapply Qlt_trans; [now apply (Hlt j) | exact E].
        -- eapply Qle_lt_trans; [|exact E]. apply (Hle j); [lia | exact Hy].
      * intros j y Hj Hy. assert (j = k) as -> by lia.
        rewrite Hk in Hy. inversion Hy. apply Qle_refl.
    + apply Qlt_bool_false in E. apply IH; [exact Hi|exact Hlt| |exact Hrest].
      intros j y Hj Hy. destruct (decide (j = k)) as [->|Hne].
      * rewrite Hk in Hy. inversion Hy. subst. exact E.
      * apply (Hle j); [lia | exact Hy].
Qed.

Lemma argmax_first row i :
  argmax row = Some i ->
  exists q,
    row !! i = Some q /\
    (forall j y, (j < i)%nat -> row !! j = Some y -> (y < q)%Q) /\
    (forall y, y ∈ row -> (y <= q)%Q).
Proof.
  destruct row as [|x row]; simpl; [discriminate|].
  intros [= <-]. apply argmax_from_first; [reflexivity| | |reflexivity].
  - intros j y Hj. lia.
  - intros j y Hj Hy. assert (j = 0)%nat as -> by lia.
    inversion Hy. apply Qle_refl.
Qed.

(** The greedy branch of [act] (lines 160-162) returns the action at the
    first position whose predicted value is the largest: no value is
    larger, and every value at an earlier position of the prediction is
    strictly smaller, so ties go to the action that comes first in
    [ACTIONS]. *)
Theorem greedy_first_best (w : weights) (r : state_repr) x :
  greedy w r = inr x ->
  exists i q,
    ACTIONS !! i = Some x /\ predict w r !! i = Some q /\
    (forall y, y ∈ predict w r -> (y <= q)%Q) /\
    (forall j y, (j < i)%nat -> predict w r !! j = Some y -> (y < q)%Q).
Proof.
  unfold greedy. destruct (argmax _) as [i|] eqn:Ei; [|discriminate].
  destruct (ACTIONS !! i) as [y|] eqn:Ea; [|discriminate].
  intros [= <-]. destruct (argmax_first _ _ Ei) as (q & Hq & Hfirst & Hmax).
  exists i, q. auto.
Qed.

Lemma argmax_from_amax (full : list Q) row : forall i m k,
  full !! i = Some m -> drop k full = row ->
  full !! argmax_from i m k row = Some (amax_from m row).
Proof.
  induction row as [|x row IH]; intros i m k Hi Hdrop; simpl; [exact Hi|].
  assert (Hk : full !! k = Some x).
  { rewrite <- (Nat.add_0_r k), <- lookup_drop, Hdrop. reflexivity. }
  assert (Hrest : drop (S k) full = row).
  { rewrite (drop_S _ _ _ Hk) in Hdrop. now inversion Hdrop. }
  destruct (Qlt_bool m x); now apply IH.
Qed.

Lemma argmax_amax row :
  match argmax row with
  | Some i => exists q, row !! i = Some q /\ amax row = Some q
  | None => amax row = None
  end.
Proof.
  destruct row as [|x row]; simpl; [reflexivity|].
  exists (amax_from x row). split; [|reflexivity].
  now apply argmax_from_amax.
Qed.

(** While the two networks have the same weights (as they have after
    [init_run] and after every synchronisation, until the next [fit]),
    the double-DQN rule of lines 117-118 and the standard rule of line
    120 compute the same TD target, and fail on the same samples. *)
Theorem double_dqn_agrees (s : self) (x : sample) :
  model s = old_model s ->
  td_target (set_doubleDQN true s) x = td_target (set_doubleDQN false s) x.
Proof.
  intros H. unfold td_target. simpl. rewrite H.
  pose proof (argmax_amax (predict (old_model s) (s_new x))) as Ha.
  destruct (argmax _) as [i|].
  - destruct Ha as (q & -> & ->). reflexivity.
  - now rewrite Ha.
Qed.

(** ** What is logged, and when *)

Definition is_log (ev : event) : Prop :=
  match ev with Log _ _ => True | _ => False end.

Lemma new_events_emit ev s : new_events s (emit ev s) = [ev].
Proof. unfold new_events, emit. simpl. now rewrite drop_app_length. Qed.

Lemma new_events_app P Q s s1 s2 :
  emits P s s1 -> emits Q s1 s2 ->
  new_events s s2 = new_events s s1 ++ new_events s1 s2.
Proof.
  intros (k1 & E1 & _) (k2 & E2 & _). unfold new_events.
  rewrite E2, (drop_app_length (out s1) k2), E1.
  rewrite <- app_assoc, !drop_app_length. reflexivity.
Qed.

Lemma act_only_temperature a : preserves (emits is_temperature) (act a).
Proof. quiet. Qed.

Lemma learn_rest_no_log r round :
  preserves (emits (fun ev => ~ is_log ev))
    (learn_train r ;; learn_schedule round).
Proof. quiet. Qed.

Lemma learn_window_emits round reward :
  preserves (emits is_log) (learn_window round reward).
Proof. quiet. Qed.

Lemma learn_new_events a s :
  new_events s (exec (learn a) s) =
  new_events s (exec (learn_window (l_round a) (l_reward a)) s) ++
  new_events (exec (learn_window (l_round a) (l_reward a)) s)
    (exec (learn a) s).
Proof.
  eapply new_events_app; [apply learn_window_emits|].
  unfold learn. rewrite exec_bind, learn_window_returns.
  apply learn_rest_no_log.
Qed.

Lemma learn_rest_new_events a s ev :
  ev ∈ new_events (exec (learn_window (l_round a) (l_reward a)) s)
         (exec (learn a) s) ->
  ~ is_log ev.
Proof.
  intros H. refine (emits_new_events (fun ev => ~ is_log ev) _ _ ev _ H).
  unfold learn. rewrite exec_bind, learn_window_returns.
  apply learn_rest_no_log.
Qed.

Lemma learn_window_new_events round reward s :
  new_events s (exec (learn_window round reward) s) =
  if round mod 100 =? 0 then
    if round >? game_duration s - score_scope s then
      [Log (RewardsScore (r_sum s) (epsilon s) (buffer_len (memory s)))
         (Some VALUE)]
    else if num_of_samples s =? 0 then
      [Log SomethingWentWrong (Some EXCEPTION);
       Log (ExceptionText ZeroDivisionError) (Some EXCEPTION)]
    else
      [Log (RewardsLoss (r_sum s) (epsilon s) (buffer_len (memory s))
              (sum_of_loss s / inject_Z (num_of_samples s)))
         (Some VALUE)]
  else [].
Proof.
  rewrite learn_window_unfold. unfold new_events.
  destruct (round mod 100 =? 0); [|simpl; apply drop_all].
  destruct (round >? _); [simpl; now rewrite drop_app_length|].
  destruct (num_of_samples s =? 0); simpl.
  - now rewrite <- app_assoc, drop_app_length.
  - now rewrite drop_app_length.
Qed.

(** [learn] logs in the rounds that are multiples of 100 and in no other:
    in such a round the first thing it records is one line tagged VALUE,
    or, if the window code raised, two lines tagged EXCEPTION, and it
    logs nothing after that; in any other round it logs nothing at all.
    [act] never logs, prints or calls [fit]: all it puts on record is the
    temperature division of its softmax branch. *)
Theorem log_cadence (s : self) :
  (forall a ev, ev ∈ new_events s (exec (act a) s) -> is_temperature ev) /\
  (forall a ev, l_round a mod 100 <> 0 ->
     ev ∈ new_events s (exec (learn a) s) -> ~ is_log ev) /\
  (forall a, l_round a mod 100 = 0 ->
     exists logs rest,
       new_events s (exec (learn a) s) = logs ++ rest /\
       (forall ev, ev ∈ rest -> ~ is_log ev) /\
       ((exists m, logs = [Log m (Some VALUE)]) \/
        logs = [Log SomethingWentWrong (Some EXCEPTION);
                Log (ExceptionText ZeroDivisionError) (Some EXCEPTION)])).
Proof.
  split; [|split].
  - intros a ev H.
    exact (emits_new_events is_temperature _ _ ev (act_only_temperature a s) H).
  - intros a ev Hr. rewrite learn_new_events, learn_window_new_events.
    apply Z.eqb_neq in Hr. rewrite Hr. simpl.
    apply learn_rest_new_events.
  - intros a Hr.
    exists (new_events s (exec (learn_window (l_round a) (l_reward a)) s)),
      (new_events (exec (learn_window (l_round a) (l_reward a)) s)
         (exec (learn a) s)).
    split; [apply learn_new_events|].
    split; [intros ev; apply learn_rest_new_events|].
    rewrite learn_window_new_events. apply Z.eqb_eq in Hr. rewrite Hr.
    destruct (_ >? _); [left; eauto|].
    destruct (num_of_samples s =? 0); [right; reflexivity | left; eauto].
Qed.

(** ** The TD target of every training step *)

Lemma for_each_total {A B} (f : A -> exn + B) l :
  (forall x, x ∈ l -> exists y, f x = inr y) ->
  exists ys, for_each f l = inr ys.
Proof.
  induction l as [|x l IH]; intros H; simpl; [eauto|].
  destruct (H x) as [y ->]; [left|].
  destruct IH as [ys ->]; [|eauto].
  intros x' Hx'. apply H. now right.
Qed.

(** The two networks value the same, non-zero number of actions at the
    sample's next state, and the sample's action is one of those that the
    live network values at the sample's previous state. *)
Definition well_shaped (s : self) (x : sample) : Prop :=
  predict (model s) (s_new x) <> [] /\
  length (predict (old_model s) (s_new x)) =
  length (predict (model s) (s_new x)) /\
  (s_action x < length (predict (model s) (s_prev x)))%nat.

(** On a well-shaped sample both rules yield a target. *)
Lemma td_target_total s x :
  predict (model s) (s_new x) <> [] ->
  length (predict (old_model s) (s_new x)) =
  length (predict (model s) (s_new x)) ->
  exists t, td_target s x = inr t.
Proof.
  intros Hne Hlen. unfold td_target. destruct (doubleDQN s).
  - destruct (argmax _) as [i|] eqn:Ei.
    + apply argmax_lt in Ei. rewrite <- Hlen in Ei.
      apply lookup_lt_is_Some_2 in Ei as [q ->]. eauto.
    + destruct (predict (model s) (s_new x)); [congruence | discriminate].
  - destruct (predict (old_model s) (s_new x)) as [|q row] eqn:Eo; simpl.
    + destruct (predict (model s) (s_new x)); [congruence | discriminate].
    + eauto.
Qed.

Lemma learn_out a s : out (exec (learn a) s) = out (before_schedule a s).
Proof.
  unfold exec at 1. rewrite learn_unfold.
  destruct (result _ _); [reflexivity|].
  apply (learn_schedule_keeps_out _ _).
Qed.

Lemma learn_train_fits r s batch target tf :
  learn_targets s r = inr (batch, target) ->
  for_each (target_row s) (zip batch target) = inr tf ->
  exists k,
    out (exec (learn_train r) s) =
    out s ++ Fit (map s_prev batch) tf (map s_weight batch) :: k.
Proof.
  intros Ht Hrow. unfold exec. rewrite learn_train_unfold.
  unfold learn_targets in Ht.
  destruct (buffer_sample _ _ _ _) as [e'|batch']; [discriminate|].
  destruct (for_each (td_target s) batch') as [e'|target']; [discriminate|].
  injection Ht as -> ->.
  match goal with
  | |- context [for_each (target_row s) ?z] =>
      replace (for_each (target_row s) z) with (@inr exn (list (list Q)) tf)
        by (symmetry; exact Hrow)
  end.
  cbv zeta. destruct (fit _ _ _ _) as [w' [e|loss]]; simpl.
  - exists [Print e]. now rewrite <- app_assoc.
  - destruct (update_priorities _ _ _) as [e|m]; simpl.
    + exists [Print e]. now rewrite <- app_assoc.
    + exists []. reflexivity.
Qed.

(** When the replay buffer yields a batch of well-shaped samples, [learn]
    computes a TD target for every sample and calls [fit]. *)
Lemma learn_fits a s batch :
  buffer_sample (memory s) (batch_size s) (6 # 10) (l_rng a) = inr batch ->
  (forall x, x ∈ batch -> well_shaped s x) ->
  exists target tf,
    for_each (td_target s) batch = inr target /\
    Fit (map s_prev batch) tf (map s_weight batch)
      ∈ new_events s (exec (learn a) s).
Proof.
  intros Hb Hshape.
  destruct (for_each_total (td_target s) batch) as [target Ht].
  { intros x Hx. destruct (Hshape x Hx) as (Hne & Hlen & _).
    now apply td_target_total. }
  destruct (for_each_total (target_row s) (zip batch target)) as [tf Hf].
  { intros [x t] Hxt. apply list_elem_of_lookup in Hxt as [i Hi].
    apply lookup_zip_with_Some in Hi as (x' & t' & [= <- <-] & Hx & _).
    destruct (Hshape x) as (_ & _ & Hact);
      [apply list_elem_of_lookup; eauto|].
    unfold target_row, assign_target. simpl.
    destruct (decide _); [eauto | contradiction]. }
  exists target, tf. split; [exact Ht|].
  assert (Hlt : learn_targets s (l_rng a) = inr (batch, target)).
  { unfold learn_targets. rewrite Hb.
    match goal with
    | |- context [for_each (td_target s) ?z] =>
        replace (for_each (td_target s) z) with (@inr exn (list Q) target)
          by (symmetry; exact Ht)
    end.
    reflexivity. }
  set (s1 := exec (learn_window (l_round a) (l_reward a)) s).
  assert (Hl : learner s1 = learner s) by apply learn_window_keeps_learner.
  destruct (learn_train_fits (l_rng a) s1 batch target tf) as [k Hk].
  { now rewrite (learn_targets_learner s s1 _ Hl). }
  { rewrite (for_each_ext (target_row s1) (target_row s));
      [exact Hf | intros xt; now apply target_row_learner]. }
  destruct (learn_window_emits (l_round a) (l_reward a) s) as (k1 & E1 & _).
  fold s1 in E1. unfold new_events.
  rewrite learn_out. unfold before_schedule. fold s1.
  rewrite Hk, E1, <- app_assoc, drop_app_length.
  apply elem_of_app. right. left.
Qed.

(** C2. Whenever [learn] calls [fit], the entry of the taken action in the
    target vector of each sample of the batch is the TD target of the
    specification: [reward + gamma * max_a old_model.Q(next_state, a)]
    when [doubleDQN] is false, and
    [reward + gamma * old_model.Q(next_state, a)] for an [a] that
    maximises [model.Q(next_state, a)] when [doubleDQN] is true. And
    [learn] does compute these targets and call [fit] with them, under
    either rule, whenever the replay buffer yields a batch of well-shaped
    samples. *)
Theorem learn_td_target (s : self) (a : learn_args) :
  (forall prev tf sw,
     Fit prev tf sw ∈ new_events s (exec (learn a) s) ->
     exists batch,
       buffer_sample (memory s) (batch_size s) (6 # 10) (l_rng a) = inr batch /\
       prev = map s_prev batch /\
       forall i x, batch !! i = Some x ->
         exists row t,
           tf !! i = Some row /\ row !! s_action x = Some t /\
           td_target s x = inr t /\ td_target_spec s x t) /\
  (forall batch,
     buffer_sample (memory s) (batch_size s) (6 # 10) (l_rng a) = inr batch ->
     (forall x, x ∈ batch -> well_shaped s x) ->
     exists tf,
       Fit (map s_prev batch) tf (map s_weight batch)
         ∈ new_events s (exec (learn a) s) /\
       forall i x, batch !! i = Some x ->
         exists row t,
           tf !! i = Some row /\ row !! s_action x = Some t /\
           td_target s x = inr t /\ td_target_spec s x t).
Proof.
  assert (Hsound : forall prev tf sw,
    Fit prev tf sw ∈ new_events s (exec (learn a) s) ->
    exists batch,
      buffer_sample (memory s) (batch_size s) (6 # 10) (l_rng a) = inr batch /\
      prev = map s_prev batch /\
      forall i x, batch !! i = Some x ->
        exists row t,
          tf !! i = Some row /\ row !! s_action x = Some t /\
          td_target s x = inr t /\ td_target_spec s x t).
  { intros prev tf sw H.
    apply (emits_new_events _ _ _ _ (learn_fit a s)) in H.
    destruct (fit_of_rows _ _ _ _ _ H)
      as (batch & target & Hb & Ht & Hp & Hw & Hlt & Hlf & Hrows).
    exists batch. repeat split; auto.
    intros i x Hx.
    destruct (Hrows i x Hx) as (t & row & Hti & Hri & Htx & Hrow).
    exists row, t. apply target_row_inv in Hrow as [Hlt' ->].
    repeat split; auto.
    - now apply list_lookup_insert_eq.
    - now apply td_target_sound. }
  split; [exact Hsound|].
  intros batch Hb Hshape.
  destruct (learn_fits a s batch Hb Hshape) as (target & tf & _ & Hfit).
  exists tf. split; [exact Hfit|].
  destruct (Hsound _ _ _ Hfit) as (batch' & Hb' & _ & Hrows).
  rewrite Hb in Hb'. injection Hb' as <-. exact Hrows.
Qed.

(** C4, amended. In a round that is a multiple of 100, the window code of
    [learn] (lines 97-112) resets the reward sum, the loss sum and the
    sample count when the round is not in the final scoring window and
    samples were trained; in the final scoring window
    ([round > game_duration - score_scope]) it resets the reward sum only
    and leaves the loss sum and the sample count as they are. The
    training step of the same call then adds to the loss sum and the
    sample count: one sample and its loss if [fit] returns a loss,
    nothing otherwise. So after the call the reward sum is 0, and the
    loss sum and the sample count are that addition on top of 0 in the
    first case, on top of what they were in the second. *)
Theorem window_reset (s : self) (a : learn_args) :
  l_round a mod 100 = 0 ->
  let s' := exec (learn_window (l_round a) (l_reward a)) s in
  let trained_from (n : Z) (l : Q) :=
    match fit_call s (l_rng a) with
    | Some (_, inr loss) => (n + 1, (l + loss)%Q)
    | _ => (n, l)
    end in
  r_sum (exec (learn a) s) = r_sum s' /\
  (l_round a <= game_duration s - score_scope s -> num_of_samples s <> 0 ->
   r_sum s' = 0%Q /\ sum_of_loss s' = 0%Q /\ num_of_samples s' = 0 /\
   (num_of_samples (exec (learn a) s), sum_of_loss (exec (learn a) s)) =
   trained_from 0 0%Q) /\
  (l_round a > game_duration s - score_scope s ->
   r_sum s' = 0%Q /\ sum_of_loss s' = sum_of_loss s /\
   num_of_samples s' = num_of_samples s /\
   (num_of_samples (exec (learn a) s), sum_of_loss (exec (learn a) s)) =
   trained_from (num_of_samples s) (sum_of_loss s)).
Proof.
  intros Hr s' trained_from. split; [apply learn_r_sum|].
  assert (Hcall :
    (num_of_samples (exec (learn a) s), sum_of_loss (exec (learn a) s)) =
    trained_from (num_of_samples s') (sum_of_loss s')).
  { pose proof (learn_trained_fit_call a s) as Ht. fold s' in Ht.
    unfold trained in Ht. subst trained_from. cbv beta.
    destruct (fit_call s (l_rng a)) as [[w [e|loss]]|];
      injection Ht as _ -> ->; reflexivity. }
  rewrite Hcall. subst s'. rewrite learn_window_unfold.
  apply Z.eqb_eq in Hr. rewrite Hr.
  destruct (Z.gtb_spec (l_round a) (game_duration s - score_scope s)).
  - split; [lia|]. intros _. auto.
  - split; [|lia]. intros _ Hn.
    apply Z.eqb_neq in Hn. rewrite Hn. auto.
Qed.

End Policy.

(** * A small world

    A world to run the policy in: the three moves of the snake, states
    that are numbers, a network of one weight that values the moves
    [w], [x] and [0] in state [x], and a replay buffer that hands out its
    oldest entries. [fit] refuses an empty batch, as Keras does. *)

Inductive move : Set := TurnLeft | TurnRight | Forward.

#[global] Instance move_eq_dec : EqDecision move.
Proof. solve_decision. Defined.

Definition tiny_sample (b : list (Z * nat * Q * Z * Z)) (n : Z)
    : list (Z * nat * Q * Z * Z * Q * nat) :=
  imap (fun i x => (x, 1%Q, i)) (take (Z.to_nat n) b).

#[global] Instance tiny : World := {|
  game_state := Z;
  action := move;
  ACTIONS := [TurnLeft; TurnRight; Forward];
  state_repr := Z;
  get_state_repr := fun x => x;
  weights := Z;
  _build_model := 0;
  predict := fun w x => [inject_Z w; inject_Z x; 0%Q];
  fit := fun w prev _ _ =>
    match prev with
    | [] => (w, inl FitError)
    | _ :: _ => (w + 1, inr 1%Q)
    end;
  buffer := list (Z * nat * Q * Z * Z);
  rng := unit;
  new_buffer := fun _ _ => [];
  buffer_len := length;
  buffer_add := fun b p a r n t => b ++ [(p, a, r, n, t)];
  buffer_sample := fun b n _ _ => inr (tiny_sample b n);
  update_priorities := fun b _ _ => inr b
|}.

(** The object as the base policy's constructor leaves it for a game of
    1000 rounds whose last 100 count, with no argument configured. *)
Definition tiny_blank : self :=
  mkSelf 1000 100 EPSILON GAMMA false false 0 0 0 0 false 0 0 0 0 [] 0 0 [].

(** The object after [cast_string_args] (with a hook that adds nothing)
    and [init_run]. *)
Definition tiny_start : self :=
  exec init_run (exec (cast_string_args ret (mkArgs None None)) tiny_blank).

(** The game moved right from state 5 to state 2 for a reward of 1. *)
Definition tiny_act_args (round : Z) : act_args :=
  mkAct round (Some 5) (Some TurnRight) 1 2 false 0 0.

Definition tiny_learn_args (round : Z) (reward : Q) : learn_args :=
  mkLearn round (Some 5) (Some TurnRight) reward 2 false tt.

Definition tiny_act (round : Z) : call := Act (tiny_act_args round).

Definition tiny_learn (round : Z) (reward : Q) : call :=
  Learn (tiny_learn_args round reward).

(** One move, and one training step on it: the live network has weight 1,
    the target network still 0, one sample is counted. *)
Definition tiny_trained : self := run tiny_start [tiny_act 1; tiny_learn 1 1].


(** ** The theorems at work in the small world *)

Lemma epsilon_non_increasing_witness :
  (epsilon (step (run tiny_start [tiny_learn 200 0]) (tiny_act 950)) <=
   epsilon (run tiny_start [tiny_learn 200 0]))%Q /\
  (min_epsilon tiny_start <= epsilon (run tiny_start [tiny_learn 200 0]))%Q /\
  epsilon (run tiny_start [tiny_learn 200 0; tiny_act 950]) = 0%Q.
Proof.
  assert (Hd : (epsilon_decay tiny_start <= 1)%Q) by (vm_compute; discriminate).
  assert (Hm : (0 <= min_epsilon tiny_start)%Q) by (vm_compute; discriminate).
  assert (H0 : (min_epsilon tiny_start <= epsilon tiny_start)%Q)
    by (vm_compute; discriminate).
  destruct (epsilon_non_increasing tiny_start [tiny_learn 200 0] (tiny_act 950)
              Hd Hm H0) as (H1 & H2 & _).
  destruct (epsilon_non_increasing tiny_start [tiny_learn 200 0; tiny_act 950]
              (tiny_act 951) Hd Hm H0) as (_ & _ & H3).
  split; [exact H1|].
  split; [apply H2 | apply H3]; reflexivity.
Defined.

(** C1 as stated fails: the policy starts with epsilon 2.0, above the
    floor 0.33, and one call of [act] in round 950 of 1000, the last 100
    of which count, leaves epsilon at 0, below the floor. *)
Lemma epsilon_below_min_epsilon :
  (min_epsilon tiny_start == 33 # 100)%Q /\
  (min_epsilon tiny_start <= epsilon tiny_start)%Q /\
  (epsilon (run tiny_start [tiny_act 950]) < min_epsilon tiny_start)%Q.
Proof.
  split; [reflexivity|]. split; vm_compute; [discriminate | reflexivity].
Qed.

Lemma epsilon_zero_after_money_time_witness :
  epsilon (exec (act (tiny_act_args 950)) tiny_start) = 0%Q /\
  epsilon (run (exec (act (tiny_act_args 950)) tiny_start)
             [tiny_learn 1000 0; tiny_act 3; tiny_learn 1200 0]) = 0%Q.
Proof.
  apply (epsilon_zero_after_money_time tiny_start (tiny_act_args 950)).
  reflexivity.
Defined.

Lemma act_greedy_after_money_time_witness :
  let a := mkAct 3 (Some 2) (Some Forward) 1 2 false 12345 2 in
  let s' := run (exec (act (tiny_act_args 950)) tiny_start) [tiny_learn 951 0] in
  result (act a) s' = act_greedy (model s') a /\
  (forall x, result (act a) s' = inr x ->
     greedy (model s') (get_state_repr (a_new_state a)) = inr x).
Proof.
  intros a.
  apply (act_greedy_after_money_time tiny_start (tiny_act_args 950)
           [tiny_learn 951 0] a).
  reflexivity.
Defined.

Lemma softmax_temperature_nonzero_witness :
  Temperature [0%Q; 2%Q; 0%Q] 2 ∈ new_events tiny_start (run tiny_start [tiny_act 1]) /\
  (0 < 2)%Q /\ ~ (2 == 0)%Q.
Proof.
  assert (H : Temperature [0%Q; 2%Q; 0%Q] 2 ∈
              new_events tiny_start (run tiny_start [tiny_act 1]))
    by (vm_compute; repeat constructor).
  split; [exact H|].
  apply (softmax_temperature_nonzero tiny_start [tiny_act 1] [0%Q; 2%Q; 0%Q]);
    [reflexivity | reflexivity | exact H].
Defined.

Lemma target_network_sync_witness :
  old_model (step tiny_trained (tiny_act 2)) = old_model tiny_trained /\
  old_model (step tiny_trained (tiny_learn 250 0)) =
  model (step tiny_trained (tiny_learn 250 0)).
Proof.
  destruct (target_network_sync tiny_trained (tiny_act 2)) as (H1 & _ & _).
  destruct (target_network_sync tiny_trained (tiny_learn 250 0))
    as (_ & H2 & _).
  split; [apply H1 | apply H2]; reflexivity.
Defined.



(** One move: the buffer holds one transition. *)
Definition tiny_moved : self := run tiny_start [tiny_act 1].

(** Double DQN, after three training steps without a synchronisation:
    the live network has weight 3 and values left most at state 2, the
    target network still has weight 0 and values right most. *)
Definition tiny_double : self :=
  run (set_doubleDQN true tiny_start)
    [tiny_act 1; tiny_learn 1 1; tiny_learn 2 1; tiny_learn 3 1].

Lemma learn_td_target_witness :
  (let s := tiny_moved in
   let a := tiny_learn_args 1 1 in
   let tf := [[0%Q; 10 # 4; 0%Q]] in
   Fit [5] tf [1%Q] ∈ new_events s (exec (learn a) s) /\
   exists batch,
     buffer_sample (memory s) (batch_size s) (6 # 10) (l_rng a) = inr batch /\
     [5] = map s_prev batch /\
     forall i x, batch !! i = Some x ->
       exists row t,
         tf !! i = Some row /\ row !! s_action x = Some t /\
         td_target s x = inr t /\ td_target_spec s x t) /\
  (let s := tiny_double in
   let a := tiny_learn_args 4 1 in
   let batch := [(5, 1%nat, 1%Q, 2, 0, 1%Q, 0%nat)] in
   doubleDQN s = true /\
   td_target s (5, 1%nat, 1%Q, 2, 0, 1%Q, 0%nat) = inr (4 # 4) /\
   td_target (set_doubleDQN false s) (5, 1%nat, 1%Q, 2, 0, 1%Q, 0%nat) =
     inr (10 # 4) /\
   exists tf,
     Fit (map s_prev batch) tf (map s_weight batch)
       ∈ new_events s (exec (learn a) s) /\
     forall i x, batch !! i = Some x ->
       exists row t,
         tf !! i = Some row /\ row !! s_action x = Some t /\
         td_target s x = inr t /\ td_target_spec s x t).
Proof.
  split.
  - intros s a tf.
    assert (H : Fit [5] tf [1%Q] ∈ new_events s (exec (learn a) s))
      by (vm_compute; repeat constructor).
    split; [exact H|].
    destruct (learn_td_target s a) as [Hsound _].
    exact (Hsound [5] tf [1%Q] H).
  - intros s a batch.
    split; [reflexivity|]. split; [reflexivity|]. split; [reflexivity|].
    destruct (learn_td_target s a) as [_ Hfits].
    apply (Hfits batch); [reflexivity|].
    intros x Hx. apply list_elem_of_singleton in Hx. subst x.
    repeat split; [vm_compute; discriminate | vm_compute; repeat constructor].
Defined.

Lemma learn_target_vector_witness :
  let s := tiny_moved in
  let a := tiny_learn_args 1 1 in
  let tf := [[0%Q; 10 # 4; 0%Q]] in
  Fit [5] tf [1%Q] ∈ new_events s (exec (learn a) s) /\
  exists batch target,
    buffer_sample (memory s) (batch_size s) (6 # 10) (l_rng a) = inr batch /\
    for_each (td_target s) batch = inr target /\
    [5] = map s_prev batch /\
    length tf = length batch /\
    forall i x, batch !! i = Some x ->
      exists t row,
        target !! i = Some t /\ tf !! i = Some row /\
        length row = length (predict (model s) (s_prev x)) /\
        row !! s_action x = Some t /\
        (forall j, j <> s_action x ->
           row !! j = predict (model s) (s_prev x) !! j) /\
        (doubleDQN s = false -> (gamma s == 3 # 4)%Q -> (s_reward x == 1)%Q ->
         forall q, is_max (predict (old_model s) (s_new x)) q -> (q == 2)%Q ->
         (t == 5 # 2)%Q).
Proof.
  intros s a tf.
  assert (H : Fit [5] tf [1%Q] ∈ new_events s (exec (learn a) s))
    by (vm_compute; repeat constructor).
  split; [exact H|].
  exact (learn_target_vector s a [5] tf [1%Q] H).
Defined.

Lemma window_reset_witness :
  let s := tiny_trained in
  let a := tiny_learn_args 100 0 in
  let b := tiny_learn_args 1000 0 in
  (r_sum (exec (learn_window 100 0) s) = 0%Q /\
   sum_of_loss (exec (learn_window 100 0) s) = 0%Q /\
   num_of_samples (exec (learn_window 100 0) s) = 0 /\
   (num_of_samples (exec (learn a) s), sum_of_loss (exec (learn a) s)) =
   (0 + 1, (0 + 1)%Q)) /\
  (r_sum (exec (learn_window 1000 0) s) = 0%Q /\
   sum_of_loss (exec (learn_window 1000 0) s) = sum_of_loss s /\
   num_of_samples (exec (learn_window 1000 0) s) = num_of_samples s /\
   (num_of_samples (exec (learn b) s), sum_of_loss (exec (learn b) s)) =
   (num_of_samples s + 1, (sum_of_loss s + 1)%Q)).
Proof.
  intros s a b.
  destruct (window_reset s a eq_refl) as (_ & H1 & _).
  destruct (window_reset s b eq_refl) as (_ & _ & H2).
  split.
  - apply H1; vm_compute; discriminate.
  - apply H2. reflexivity.
Defined.

(** C4 as stated fails: round 1000 is a multiple of 100 in the final
    scoring window of a game of 1000 rounds; the window code of [learn]
    leaves the loss sum and the sample count at 1, and the training step
    of the call raises them to 2. *)
Lemma window_not_reset_in_money_time :
  let s := tiny_trained in
  let a := tiny_learn_args 1000 0 in
  l_round a mod 100 = 0 /\
  l_round a > game_duration s - score_scope s /\
  num_of_samples (exec (learn_window (l_round a) (l_reward a)) s) = 1 /\
  sum_of_loss (exec (learn_window (l_round a) (l_reward a)) s) = 1%Q /\
  num_of_samples (exec (learn a) s) = 2 /\
  sum_of_loss (exec (learn a) s) = 2%Q.
Proof. vm_compute. repeat split. Qed.




(** ** More examples in the small world *)

(** A buffer whose only transition names an action that the network does
    not value: position 7 of a prediction of three values. *)
Definition tiny_misindexed : self :=
  set_memory [(5, 7%nat, 1%Q, 2, 0)] tiny_start.

Lemma learn_index_error_witness :
  let s := tiny_misindexed in
  let a := tiny_learn_args 1 1 in
  let s1 := exec (learn_window (l_round a) (l_reward a)) s in
  out (exec (learn a) s) = out s1 ++ [Print IndexError] /\
  trained (exec (learn a) s) = (model s, num_of_samples s1, sum_of_loss s1).
Proof.
  intros s a.
  apply (learn_index_error s a [(5, 7%nat, 1%Q, 2, 0, 1%Q, 0%nat)] [10 # 4]
           0%nat (5, 7%nat, 1%Q, 2, 0, 1%Q, 0%nat)).
  - reflexivity.
  - reflexivity.
  - vm_compute. repeat constructor.
Defined.

(** The first call of a game: no previous state. And a call with a
    previous state but no previous action. *)
Definition tiny_first_act : act_args :=
  @mkAct tiny 1 None None 0 2 false 0 0.

Definition tiny_actionless_act : act_args :=
  @mkAct tiny 1 (Some 5) None 1 2 false 0 0.

Lemma act_remembers_witness :
  memory (exec (act tiny_first_act) tiny_start) =
    memory tiny_start /\
  (exists i,
     ACTIONS !! i = Some TurnRight /\
     (forall j, (j < i)%nat -> ACTIONS !! j <> Some TurnRight) /\
     memory (exec (act (tiny_act_args 1)) tiny_start) =
     buffer_add (memory tiny_start) (get_state_repr 5) i 1
       (get_state_repr 2) 0) /\
  (memory (exec (act tiny_actionless_act) tiny_start) = memory tiny_start /\
   result (act tiny_actionless_act) tiny_start = inl ValueError).
Proof.
  destruct (act_remembers tiny_start tiny_first_act) as (H1 & _ & _).
  destruct (act_remembers tiny_start (tiny_act_args 1)) as (_ & H2 & _).
  destruct (act_remembers tiny_start tiny_actionless_act) as (_ & _ & H3).
  split; [apply H1; reflexivity|].
  split.
  - apply (H2 5 TurnRight); [reflexivity | reflexivity |].
    simpl. repeat constructor.
  - apply (H3 5); [reflexivity|]. intros x Hx. discriminate.
Defined.

Lemma act_returns_action_witness : TurnLeft ∈ ACTIONS.
Proof.
  apply (act_returns_action tiny_start (tiny_act_args 1) TurnLeft).
  reflexivity.
Defined.

Lemma act_returns_witness :
  exists x,
    result (act (tiny_act_args 951))
      (run tiny_start [tiny_act 950; tiny_learn 950 1]) = inr x /\
    x ∈ ACTIONS.
Proof.
  apply (act_returns (run tiny_start [tiny_act 950; tiny_learn 950 1])
           (tiny_act_args 951)).
  - reflexivity.
  - discriminate.
  - intros w r. reflexivity.
  - right. exists TurnRight. split; [reflexivity|].
    simpl. repeat constructor.
Defined.

Lemma reward_window_witness :
  let cs := [tiny_learn 1 3; tiny_act 2; tiny_learn 2 4] in
  let a := tiny_learn_args 100 5 in
  (r_sum (run tiny_start cs) == r_sum tiny_start + reward_total cs)%Q /\
  (r_sum (exec (learn a) tiny_trained) = 0%Q \/
   r_sum (exec (learn a) tiny_trained) = r_sum tiny_trained).
Proof.
  intros cs a.
  destruct (reward_window tiny_start cs a) as [H1 _].
  destruct (reward_window tiny_trained cs a) as [_ H2].
  split; [apply H1 | apply H2]; reflexivity.
Defined.

(** Left and right are valued alike, forward less: left comes first. *)
Lemma greedy_first_best_witness :
  exists i q,
    ACTIONS !! i = Some TurnLeft /\ @predict tiny 1 1 !! i = Some q /\
    (forall y, y ∈ @predict tiny 1 1 -> (y <= q)%Q) /\
    (forall j y, (j < i)%nat -> @predict tiny 1 1 !! j = Some y -> (y < q)%Q).
Proof.
  apply (@greedy_first_best tiny 1 1 TurnLeft).
  reflexivity.
Defined.

Lemma double_dqn_agrees_witness :
  td_target (set_doubleDQN true tiny_start) (5, 1%nat, 1%Q, 2, 0, 1%Q, 0%nat) =
  td_target (set_doubleDQN false tiny_start) (5, 1%nat, 1%Q, 2, 0, 1%Q, 0%nat).
Proof.
  apply (double_dqn_agrees tiny_start). reflexivity.
Defined.

Lemma log_cadence_witness :
  let s := tiny_trained in
  let a := tiny_learn_args 100 0 in
  exists logs rest,
    new_events s (exec (learn a) s) = logs ++ rest /\
    (forall ev, ev ∈ rest -> ~ is_log ev) /\
    ((exists m, logs = [Log m (Some VALUE)]) \/
     logs = [Log SomethingWentWrong (Some EXCEPTION);
             Log (ExceptionText ZeroDivisionError) (Some EXCEPTION)]).
Proof.
  intros s a.
  destruct (log_cadence s) as (_ & _ & H).
  apply (H a). reflexivity.
Defined.
